(** * merge-counts: the matrix-merge core of [mergecounts/__main__.py]

    A shallow embedding of [join_dataframes_sequentially],
    [join_dataframes_recursively] and [concordance_test], together with the
    part of pandas they call ([DataFrame.merge] as an outer join on the index,
    [DataFrame.shape], assignment to [DataFrame.columns] and
    [pandas.testing.assert_frame_equal]).

    Python objects that the code mutates or shares (the list handed in by the
    caller, the working lists, the data frames) live in an explicit store and
    are referred to by address. *)

From Stdlib Require Import ZArith.
From stdpp Require Import base list strings sorting.

Set Warnings "-clear-no-such-hyp".

Open Scope Z_scope.
Open Scope nat_scope.

(** ** Data frames *)

(** A cell holds a count or is missing ([None] plays the role of NaN). *)
Definition Value : Type := option Z.

(** A data frame in row-major form: the column labels, and one entry per row
    made of the row label (the "Gene Name" index) and the cells of that row. *)
Record DataFrame : Type := mkDataFrame {
  columns : list string;
  rows : list (string * list Value)
}.

Global Instance DataFrame_eq_dec : EqDecision DataFrame.
Proof. solve_decision. Defined.

Global Instance DataFrame_inhabited : Inhabited DataFrame :=
  populate (mkDataFrame [] []).

(** [df.index] *)
Definition index (df : DataFrame) : list string := (rows df).*1.

(** [df.shape] *)
Definition shape (df : DataFrame) : nat * nat :=
  (length (rows df), length (columns df)).

(** Every row has one cell per column. *)
Definition wf (df : DataFrame) : Prop :=
  Forall (λ r, length r.2 = length (columns df)) (rows df).

(** The invariant of a loaded table: row labels are unique. *)
Definition unique_keys (df : DataFrame) : Prop := NoDup (index df).

(** [sorted(labels)]: Python compares strings code point by code point, which
    on byte strings is [String.le]. *)
Definition sorted (labels : list string) : list string :=
  merge_sort String.le labels.

(** A row of missing cells, as wide as the frame. *)
Definition blank (df : DataFrame) : list Value :=
  replicate (length (columns df)) None.

(** The rows of [df] labelled [k]. *)
Definition rows_at (df : DataFrame) (k : string) : list (list Value) :=
  (filter (λ r, r.1 = k) (rows df)).*2.

(** The first row labelled [k], if any, and the same padded with missing
    cells when there is none. *)
Definition lookup_row (df : DataFrame) (k : string) : option (list Value) :=
  head (rows_at df k).

Definition row (df : DataFrame) (k : string) : list Value :=
  default (blank df) (lookup_row df k).

(** Position of the first column labelled [c]. *)
Fixpoint label_pos (c : string) (labels : list string) : option nat :=
  match labels with
  | [] => None
  | c' :: labels => if decide (c' = c) then Some 0 else S <$> label_pos c labels
  end.

(** [cell df k c] is [Some v] when the frame has a row [k] and a column [c],
    [v] being the (possibly missing) value stored there. *)
Definition cell (df : DataFrame) (k c : string) : option Value :=
  r ← lookup_row df k; i ← label_pos c (columns df); r !! i.

(** The value at row [k], column [c], missing when the frame has no such
    cell. *)
Definition get (df : DataFrame) (k c : string) : Value :=
  mjoin (cell df k c).

(** Content of a frame up to the order of rows and columns. *)
Definition same_content (a b : DataFrame) : Prop :=
  (∀ k, k ∈ index a ↔ k ∈ index b) ∧
  (∀ c, c ∈ columns a ↔ c ∈ columns b) ∧
  (∀ k c, cell a k c = cell b k c).

(** ** [DataFrame.merge(other, how="outer", left_index=True, right_index=True)]

    pandas is not part of the repository; the join is written after its
    documentation. The result's index is the union of both indexes with the
    keys sorted lexicographically; its columns are the left columns followed
    by the right ones, a label that occurs on both sides getting the suffix
    [_x] on the left and [_y] on the right; a key contributes one row per
    pair of a left and a right row carrying it, a side without the key
    contributing missing cells. *)

Definition union_keys (a b : list string) : list string :=
  sorted (remove_dups (a ++ b)).

Definition suffix_overlap (sfx : string) (other : list string) (c : string)
  : string :=
  if decide (c ∈ other) then c +:+ sfx else c.

Definition merge_columns (a b : list string) : list string :=
  (suffix_overlap "_x" b <$> a) ++ (suffix_overlap "_y" a <$> b).

(** The rows of one side taking part in the join at key [k]. *)
Definition matching (df : DataFrame) (k : string) : list (list Value) :=
  match rows_at df k with
  | [] => [blank df]
  | rs => rs
  end.

Definition merge (left right : DataFrame) : DataFrame :=
  {| columns := merge_columns (columns left) (columns right);
     rows :=
       k ← union_keys (index left) (index right);
       l ← matching left k;
       r ← matching right k;
       [(k, l ++ r)] |}.

(** ** The store *)

(** Data frames and Python lists of data frame references, by address. *)
Record Store : Type := mkStore {
  frames : list DataFrame;
  lists : list (list nat)
}.

Definition frame (σ : Store) (r : nat) : DataFrame := frames σ !!! r.
Definition list_at (σ : Store) (d : nat) : list nat := lists σ !!! d.

Definition new_frame (df : DataFrame) (σ : Store) : Store * nat :=
  (mkStore (frames σ ++ [df]) (lists σ), length (frames σ)).

Definition new_list (σ : Store) : Store * nat :=
  (mkStore (frames σ) (lists σ ++ [[]]), length (lists σ)).

Definition set_list (d : nat) (l : list nat) (σ : Store) : Store :=
  mkStore (frames σ) (<[d := l]> (lists σ)).

(** [lst.append(x)] *)
Definition list_append (d x : nat) (σ : Store) : Store :=
  set_list d (list_at σ d ++ [x]) σ.

(** [df.columns = labels], in place. *)
Definition set_columns (r : nat) (labels : list string) (σ : Store) : Store :=
  mkStore (<[r := mkDataFrame labels (rows (frame σ r))]> (frames σ)) (lists σ).

(** ** Errors *)

Inductive Error : Type :=
| ValueError                                   (* no count file to merge *)
| ShapeMismatch (actual expected : nat * nat)  (* RuntimeError, both shapes *)
| MathIncorrect                                (* RuntimeError "Math was incorrect!" *)
| AttributeError                               (* [None.shape] *)
| AssertionError.                              (* assert_frame_equal *)

Inductive Outcome (A : Type) : Type :=
| Return (a : A)
| Raise (e : Error).
Arguments Return {A} a.
Arguments Raise {A} e.

Global Instance Error_eq_dec : EqDecision Error.
Proof. solve_decision. Defined.
Global Instance Outcome_eq_dec `{EqDecision A} : EqDecision (Outcome A).
Proof. solve_decision. Defined.

(** ** [join_dataframes_sequentially] *)

(** The [for dataframe in dfs] loop; [result] starts as [None]. *)
Fixpoint sequential_loop (dfs : list nat) (result : option nat) (σ : Store)
  : Store * option nat :=
  match dfs with
  | [] => (σ, result)
  | dataframe :: dfs =>
      match result with
      | None => sequential_loop dfs (Some dataframe) σ
      | Some r =>
          let '(σ, merged) := new_frame (merge (frame σ r) (frame σ dataframe)) σ in
          sequential_loop dfs (Some merged) σ
      end
  end.

(** The shape check shared by both reducers. *)
Definition check_shape (result : nat) (expected_result_shape : nat * nat)
    (σ : Store) : Outcome nat :=
  if decide (shape (frame σ result) = expected_result_shape)
  then Return result
  else Raise (ShapeMismatch (shape (frame σ result)) expected_result_shape).

(** [dfs] is the address of the caller's list. *)
Definition join_dataframes_sequentially (dfs : nat) (σ : Store)
  : Store * Outcome nat :=
  let num_dfs := length (list_at σ dfs) in
  if decide (num_dfs ≤ 0) then (σ, Raise ValueError)
  else
    let expected_result_shape :=
      ((shape (frame σ (list_at σ dfs !!! 0))).1, num_dfs) in
    let '(σ, result) := sequential_loop (list_at σ dfs) None σ in
    match result with
    | None => (σ, Raise AttributeError)
    | Some result => (σ, check_shape result expected_result_shape σ)
    end.

(** ** [join_dataframes_recursively] *)

(** [math.ceil(num_dfs / 2)] *)
Definition ceil_half (num_dfs : nat) : nat := (num_dfs + 1) / 2.

(** The loop that precomputes [num_iterations_needed]; [None] when the fuel
    runs out before the loop condition fails. *)
Fixpoint count_iterations (fuel num_dfs num_iterations_needed : nat)
  : option nat :=
  if decide (1 < num_dfs) then
    match fuel with
    | 0 => None
    | S fuel =>
        let amt := ceil_half num_dfs in
        count_iterations fuel amt (num_iterations_needed + amt)
    end
  else Some num_iterations_needed.

(** The inner loop [while len(dfs) > 0]. [content] is what the list at [dfs]
    holds on entry; each [dfs.pop(0)] writes the shortened list back to the
    store. [n] counts the calls of [pbar.update()]. *)
Fixpoint pairing_loop (content : list nat) (dfs merged_dfs : nat)
    (σ : Store) (n : nat) : Store * nat :=
  match content with
  | [] => (σ, n)
  | one :: content =>
      let σ := set_list dfs content σ in
      match content with
      | [] =>
          pairing_loop content dfs merged_dfs (list_append merged_dfs one σ) (S n)
      | two :: content =>
          let σ := set_list dfs content σ in
          let '(σ, merged) := new_frame (merge (frame σ one) (frame σ two)) σ in
          pairing_loop content dfs merged_dfs (list_append merged_dfs merged σ) (S n)
      end
  end.

(** The outer loop [while len(dfs) > 1]; it ends with the variable [dfs]
    bound to the last [merged_dfs]. *)
Fixpoint rounds_loop (fuel : nat) (dfs : nat) (σ : Store) (n : nat)
  : option (nat * Store * nat) :=
  if decide (1 < length (list_at σ dfs)) then
    match fuel with
    | 0 => None
    | S fuel =>
        let '(σ, merged_dfs) := new_list σ in
        let '(σ, n) := pairing_loop (list_at σ dfs) dfs merged_dfs σ n in
        rounds_loop fuel merged_dfs σ n
    end
  else Some (dfs, σ, n).

(** What a call leaves behind: the store, the progress bar (its [total] and
    its counter [n]) when one was created, and the result or the error. *)
Record Run : Type := mkRun {
  store : Store;
  pbar : option (nat * nat);
  outcome : Outcome nat
}.

Definition join_dataframes_recursively (dfs : nat) (σ : Store) : option Run :=
  let num_dfs := length (list_at σ dfs) in
  if decide (num_dfs ≤ 0) then Some (mkRun σ None (Raise ValueError))
  else
    let expected_result_shape :=
      ((shape (frame σ (list_at σ dfs !!! 0))).1, num_dfs) in
    num_iterations_needed ← count_iterations num_dfs num_dfs 0;
    '(dfs, σ, n) ← rounds_loop num_dfs dfs σ 0;
    let pbar := Some (num_iterations_needed, n) in
    if decide (length (list_at σ dfs) = 1) then
      let result := list_at σ dfs !!! 0 in
      let σ := set_columns result (sorted (columns (frame σ result))) σ in
      Some (mkRun σ pbar (check_shape result expected_result_shape σ))
    else Some (mkRun σ pbar (Raise MathIncorrect)).

(** ** [concordance_test] *)

(** [pd.testing.assert_frame_equal(left, right)] with its default options:
    same row labels in the same order, same column labels in the same order,
    equal cells, a missing cell being equal to a missing cell. *)
Definition assert_frame_equal (left right : DataFrame) : Outcome unit :=
  if decide (left = right) then Return () else Raise AssertionError.

Definition concordance_test (dfs : nat) (σ : Store)
  : option (Store * Outcome unit) :=
  let '(σ, sequential) := join_dataframes_sequentially dfs σ in
  match sequential with
  | Raise e => Some (σ, Raise e)
  | Return sequential_df =>
      run ← join_dataframes_recursively dfs σ;
      let σ := store run in
      match outcome run with
      | Raise e => Some (σ, Raise e)
      | Return recursive_df =>
          Some (σ, assert_frame_equal (frame σ sequential_df) (frame σ recursive_df))
      end
  end.

(** ** Loading *)

(** The store right after [read_counts]: one frame per file and the list
    [dfs], at address [0], referring to them in order. *)
Definition loaded (tables : list DataFrame) : Store :=
  mkStore tables [seq 0 (length tables)].

(** A single-sample table as [read_counts] builds it. *)
Definition sample (name : string) (counts : list (string * Z)) : DataFrame :=
  mkDataFrame [name] (prod_map id (λ v, [Some v]) <$> counts).

(** * Notions used to state and prove the properties *)

(** ** Calls *)

(** The frames a list of references denotes. *)
Definition tables_of (σ : Store) (l : list nat) : list DataFrame :=
  frame σ <$> l.

(** All references of [l] point into the store. *)
Definition valid (σ : Store) (l : list nat) : Prop :=
  Forall (λ r, r < length (frames σ)) l.

(** A call receives the address of a list whose references all point to
    frames of the store. *)
Definition call_ok (σ : Store) (dfs : nat) : Prop :=
  dfs < length (lists σ) ∧ valid σ (list_at σ dfs).

(** [expected_result_shape] *)
Definition expected_shape (σ : Store) (dfs : nat) : nat * nat :=
  ((shape (frame σ (list_at σ dfs !!! 0))).1, length (list_at σ dfs)).

(** Frames allocated between two stores: one per call of [merge]. *)
Definition merges_performed (σ σ' : Store) : nat :=
  length (frames σ') - length (frames σ).

(** ** The reducers on values *)

(** The left fold of the join over a nonempty list of tables: what the
    sequential reducer builds. *)
Definition merge_all (inputs : list DataFrame) : DataFrame :=
  match inputs with
  | [] => mkDataFrame [] []
  | t :: inputs => foldl merge t inputs
  end.

(** What a pairing round makes of the tables of the working list: adjacent
    pairs joined, an odd last table carried over. *)
Fixpoint pair_up (tables : list DataFrame) : list DataFrame :=
  match tables with
  | one :: two :: tables => merge one two :: pair_up tables
  | tables => tables
  end.

(** The frames a round allocates, and the references it leaves in
    [merged_dfs], [base] being the first free frame address. *)
Fixpoint pair_frames (fs : list DataFrame) (content : list nat)
  : list DataFrame :=
  match content with
  | one :: two :: content => merge (fs !!! one) (fs !!! two) :: pair_frames fs content
  | _ => []
  end.

Fixpoint pair_refs (base : nat) (content : list nat) : list nat :=
  match content with
  | one :: two :: content => base :: pair_refs (S base) content
  | content => content
  end.

(** The working list after all rounds. *)
Fixpoint reduce (fuel : nat) (tables : list DataFrame) : list DataFrame :=
  match fuel with
  | 0 => tables
  | S fuel =>
      if decide (1 < length tables) then reduce fuel (pair_up tables) else tables
  end.

(** The number of steps of the inner loop over all rounds, for a working list
    of [num] tables: the sum over the rounds of [ceil_half]. *)
Fixpoint iterations (fuel num : nat) : nat :=
  match fuel with
  | 0 => 0
  | S fuel =>
      if decide (1 < num) then ceil_half num + iterations fuel (ceil_half num)
      else 0
  end.

(** The frame [df] with its columns relabelled by the sorted labels. *)
Definition relabel_sorted (df : DataFrame) : DataFrame :=
  mkDataFrame (sorted (columns df)) (rows df).

(** The table the pairing rounds converge to, and the frame the recursive
    reducer checks and returns. *)
Definition tree_join (inputs : list DataFrame) : DataFrame :=
  default (mkDataFrame [] []) (head (reduce (length inputs) inputs)).

Definition recursive_value (inputs : list DataFrame) : DataFrame :=
  relabel_sorted (tree_join inputs).

(** The outcome of the shape check on the frame [df] held at address [r]. *)
Definition verdict (expected : nat * nat) (df : DataFrame) (r : nat)
  : Outcome nat :=
  if decide (shape df = expected) then Return r
  else Raise (ShapeMismatch (shape df) expected).

(** What [concordance_test] answers, given the frames the two reducers
    build. *)
Definition concordance (expected : nat * nat) (sequential_df recursive_df : DataFrame)
  : Outcome unit :=
  if decide (shape sequential_df = expected) then
    if decide (shape recursive_df = expected) then
      if decide (sequential_df = recursive_df) then Return ()
      else Raise AssertionError
    else Raise (ShapeMismatch (shape recursive_df) expected)
  else Raise (ShapeMismatch (shape sequential_df) expected).

(** What the outer loop leaves behind, for a working list of length at most
    [fuel]: the counter, the one reference [r] left in the working list, the
    frame it denotes, the frames allocated, and what became of the lists. *)
Record rounds_post (fuel dfs : nat) (σ : Store) (n : nat)
    (dfs' : nat) (σ' : Store) (n' : nat) (r : nat) : Prop := {
  post_n : n' = n + iterations fuel (length (list_at σ dfs));
  post_list : list_at σ' dfs' = [r];
  post_table : [frame σ' r] = reduce fuel (tables_of σ (list_at σ dfs));
  post_frames : ∃ news, frames σ' = frames σ ++ news
                        ∧ length news + 1 = length (list_at σ dfs);
  post_single : length (list_at σ dfs) = 1 → σ' = σ ∧ dfs' = dfs;
  post_fresh : 1 < length (list_at σ dfs) →
               length (frames σ) ≤ r ∧ list_at σ' dfs = [];
  post_valid : r < length (frames σ');
  post_lists : ∀ d, d < length (lists σ) → d ≠ dfs →
               lists σ' !! d = lists σ !! d
}.

(** ** What a joined frame owes to its inputs *)

(** [joint_content tables m]: the frame [m] has the keys of all the [tables],
    their columns, and in each column the values of the table it comes from,
    missing where that table has no such key. *)
Definition joint_content (tables : list DataFrame) (m : DataFrame) : Prop :=
  (∀ k, k ∈ index m ↔ ∃ t, t ∈ tables ∧ k ∈ index t) ∧
  (∀ c, c ∈ columns m ↔ ∃ t, t ∈ tables ∧ c ∈ columns t) ∧
  (∀ t k c, t ∈ tables → k ∈ index m → c ∈ columns t →
     cell m k c = Some (get t k c)).

(** [rows_joined inputs m]: the frame [m] has unique row labels, the keys of
    all inputs, as many columns as the inputs together, and at every key the
    cells of the inputs side by side, once each and in input order. *)
Definition rows_joined (inputs : list DataFrame) (m : DataFrame) : Prop :=
  unique_keys m
  ∧ (∀ k, k ∈ index m ↔ ∃ t, t ∈ inputs ∧ k ∈ index t)
  ∧ (∀ k, row m k = concat ((λ t, row t k) <$> inputs))
  ∧ length (columns m) = sum_list_with (λ t, length (columns t)) inputs.

(** No two inputs share a column label, and no input repeats one. *)
Definition distinct_labels (inputs : list DataFrame) : Prop :=
  NoDup (concat (columns <$> inputs)).

(** [folded inputs m]: when the inputs have unique keys and distinct labels,
    [m] is their left fold, with their labels in input order. *)
Definition folded (inputs : list DataFrame) (m : DataFrame) : Prop :=
  inputs ≠ [] ∧
  (Forall unique_keys inputs → distinct_labels inputs →
   m = merge_all inputs ∧ unique_keys m
   ∧ columns m = concat (columns <$> inputs)).

(** The two ways of bracketing a join of three tables, and the twelve
    arrangements of three tables. *)
Definition bracketings (a b c : DataFrame) : list DataFrame :=
  [merge (merge a b) c; merge a (merge b c)].

Definition arrangements (a b c : DataFrame) : list DataFrame :=
  bracketings a b c ++ bracketings a c b ++ bracketings b a c
  ++ bracketings b c a ++ bracketings c a b ++ bracketings c b a.

(** ** Decision procedures *)

Global Instance list_disjoint_dec `{EqDecision A} (l k : list A) :
  Decision (l ## k).
Proof.
  refine (cast_if (decide (Forall (λ x, x ∉ k) l))).
  - intros x Hx Hk. exact (proj1 (Forall_forall _ _) f x Hx Hk).
  - intros Hd. apply n, Forall_forall. intros x Hx Hk. by apply (Hd x).
Defined.

Global Instance unique_keys_dec df : Decision (unique_keys df).
Proof. unfold unique_keys. apply _. Defined.

Global Instance wf_dec df : Decision (wf df).
Proof. unfold wf. apply _. Defined.

Global Instance valid_dec σ l : Decision (valid σ l).
Proof. unfold valid. apply _. Defined.

Global Instance call_ok_dec σ dfs : Decision (call_ok σ dfs).
Proof. unfold call_ok. apply _. Defined.

(** Closes a decidable goal on concrete data by evaluation. *)
Ltac by_evaluation :=
  lazymatch goal with
  | |- ?P => apply (bool_decide_unpack P); vm_compute; exact I
  end.

(** ** Example inputs *)

Module Examples.

(** Three files with partly different genes. *)
Definition file_A : DataFrame := sample "A" [("g1", 10%Z); ("g2", 20%Z)].
Definition file_B : DataFrame := sample "B" [("g2", 30%Z); ("g3", 40%Z)].
Definition file_C : DataFrame := sample "C" [("g1", 50%Z); ("g3", 60%Z)].

(** A file that has only the first gene of [file_A]. *)
Definition file_D : DataFrame := sample "D" [("g1", 70%Z)].

(** Two files whose names give the same sample name. *)
Definition clash_1 : DataFrame := sample "s" [("g", 1%Z)].
Definition clash_2 : DataFrame := sample "s" [("g", 2%Z)].

(** One gene, one file per sample. *)
Definition one_gene (name : string) (count : Z) : DataFrame :=
  sample name [("g", count)].

(** [file_B] has the gene [g3], which the first file lacks; [file_D] has no
    gene that the first file lacks. *)
Definition two_files : Store := loaded [file_A; file_B].
Definition two_files_fewer_keys : Store := loaded [file_A; file_D].
Definition three_files : Store := loaded [file_A; file_B; file_C].

(** Samples of one gene. *)
Definition one_sample : Store := loaded [one_gene "A" 2].
Definition two_samples : Store := loaded [one_gene "A" 2; one_gene "B" 1].

(** The samples B (count 1) and A (count 2), in the two input orders. *)
Definition samples_B_A : Store := loaded [one_gene "B" 1; one_gene "A" 2].
Definition samples_A_B : Store := loaded [one_gene "A" 2; one_gene "B" 1].

(** Five samples with the same gene and the same count, the names given in
    decreasing order, and the same five in increasing order. *)
Definition five_files : list DataFrame :=
  [one_gene "s5" 7; one_gene "s4" 7; one_gene "s3" 7; one_gene "s2" 7;
   one_gene "s1" 7].

Definition five_files_in_order : list DataFrame :=
  [one_gene "s1" 7; one_gene "s2" 7; one_gene "s3" 7; one_gene "s4" 7;
   one_gene "s5" 7].

Definition five_in_order : Store := loaded five_files_in_order.

(** The run of [concordance_test] on [five_files], step by step. *)
Definition five_sequential : Store * Outcome nat :=
  Eval vm_compute in join_dataframes_sequentially 0 (loaded five_files).

Definition five_recursive : option Run :=
  Eval vm_compute in join_dataframes_recursively 0 five_sequential.1.

Definition five_final : Store :=
  Eval vm_compute in default (loaded []) (store <$> five_recursive).

End Examples.

Import Examples.

(** * Reading the count files and running a subcommand *)

(** ** Sample names *)

(** The separator of POSIX paths, ["/"]. *)
Definition slash : Ascii.ascii := Ascii.ascii_of_nat 47.

Fixpoint has_slash (s : string) : bool :=
  match s with
  | "" => false
  | String c s => if Ascii.eqb c slash then true else has_slash s
  end.

(** [os.path.basename(path)]: what follows the last ["/"]. *)
Fixpoint basename (path : string) : string :=
  match path with
  | "" => ""
  | String c rest =>
      if has_slash rest then basename rest
      else if Ascii.eqb c slash then rest else path
  end.

(** [s.startswith(old)] *)
Fixpoint starts_with (old s : string) : bool :=
  match old, s with
  | "", _ => true
  | String a old, String b s => Ascii.eqb a b && starts_with old s
  | String _ _, "" => false
  end.

(** The scan of [s.replace(old, "")] for a nonempty [old], from left to
    right: where [old] starts, its characters are skipped ([skip] counts the
    ones still to skip), any other character is kept. *)
Fixpoint remove_scan (old : string) (skip : nat) (s : string) : string :=
  match s with
  | "" => ""
  | String c rest =>
      match skip with
      | S skip => remove_scan old skip rest
      | 0 =>
          if starts_with old s
          then remove_scan old (String.length old - 1) rest
          else String c (remove_scan old 0 rest)
      end
  end.

(** [s.replace(old, "")]; replacing the empty string by itself changes
    nothing. *)
Definition remove_all (old s : string) : string :=
  match old with
  | "" => s
  | _ => remove_scan old 0 s
  end.

(** [old] starts at none of the positions of [a] in [a +:+ rest]. *)
Fixpoint clear_of (old a rest : string) : bool :=
  match a with
  | "" => true
  | String c a' => negb (starts_with old (a +:+ rest)) && clear_of old a' rest
  end.

(** The column label [read_counts] derives from a file name. *)
Definition sample_name (filename : string) (suffix_to_remove : option string)
  : string :=
  let sample_name := basename filename in
  match suffix_to_remove with
  | Some suffix =>
      if decide (suffix = "") then sample_name
      else remove_all suffix sample_name
  | None => sample_name
  end.

(** ** [read_counts] *)

(** The files on disk as [pd.read_csv(filename, sep="\t", header=None)]
    parses them: for each name that exists, the rows of a two-column file,
    gene name and count. Files of another layout are not represented. *)
Definition Files : Type := string → option (list (string * Z)).

(** [counts[:limit_inputs]]: a negative bound counts from the end. *)
Definition slice_to (limit_inputs : Z) (counts : list string) : list string :=
  if decide (0 ≤ limit_inputs)%Z then take (Z.to_nat limit_inputs) counts
  else take (length counts - Z.to_nat (- limit_inputs)) counts.

(** The files that are read: [if limit_inputs: counts = counts[:limit_inputs]]
    is skipped for [None] and for [0]. *)
Definition limited (counts : list string) (limit_inputs : option Z)
  : list string :=
  match limit_inputs with
  | Some n => if decide (n = 0%Z) then counts else slice_to n counts
  | None => counts
  end.

(** What goes wrong outside the reducers. *)
Inductive Failure : Type :=
| FileNotFoundError (filename : string)   (* raised by [pd.read_csv] *)
| Failed (e : Error)                      (* raised by a reducer or the test *)
| UnhandledType (output_file_type : string).

(** The [for filename in counts] loop, [dfs] being the tables read so far. *)
Fixpoint read_loop (files : Files) (suffix_to_remove : option string)
    (counts : list string) (dfs : list DataFrame)
  : Failure + list DataFrame :=
  match counts with
  | [] => inr dfs
  | filename :: counts =>
      let sample_name := sample_name filename suffix_to_remove in
      match files filename with
      | None => inl (FileNotFoundError filename)
      | Some table =>
          read_loop files suffix_to_remove counts (dfs ++ [sample sample_name table])
      end
  end.

Definition read_counts (files : Files) (counts : list string)
    (suffix_to_remove : option string) (limit_inputs : option Z)
  : Failure + list DataFrame :=
  read_loop files suffix_to_remove (limited counts limit_inputs) [].

(** ** [run] *)

(** The parsed command line. *)
Record Args : Type := mkArgs {
  subcommand : string;
  counts : list string;
  file_suffix_to_remove : string;
  output_file : option string;
  output_file_type : string;
  limit_inputs : option Z
}.

(** A file written by [run]: [to_csv] with its separator, or [to_hdf] with
    its key. *)
Inductive Written : Type :=
| ToCsv (path sep : string) (df : DataFrame)
| ToHdf (path key : string) (df : DataFrame).

(** What a run leaves behind: the files written and the error that ended it,
    if any. *)
Record Finished : Type := mkFinished {
  written : list Written;
  failure : option Failure
}.

(** [args.func]: the reducer of the subcommand. *)
Definition func (subcommand : string) (dfs : nat) (σ : Store)
  : option (Store * Outcome nat) :=
  if decide (subcommand = "recursive") then
    run ← join_dataframes_recursively dfs σ; Some (store run, outcome run)
  else Some (join_dataframes_sequentially dfs σ).

(** The name of the output file. *)
Definition output_path (args : Args) : string :=
  match output_file args with
  | Some path => if decide (path = "") then "counts-matrix." +:+ output_file_type args else path
  | None => "counts-matrix." +:+ output_file_type args
  end.

(** The tab character of [sep="\t"]. *)
Definition tab : string := String (Ascii.ascii_of_nat 9) "".

Definition write_result (args : Args) (result : DataFrame) : Finished :=
  let output_file := output_path args in
  if decide (output_file_type args = "tsv") then
    mkFinished [ToCsv output_file tab result] None
  else if decide (output_file_type args = "csv") then
    mkFinished [ToCsv output_file "," result] None
  else if decide (output_file_type args = "hdf") then
    mkFinished [ToHdf output_file "counts" result] None
  else mkFinished [] (Some (UnhandledType (output_file_type args))).

(** [run], given the parsed arguments and the files on disk; [None] when a
    loop of the recursive reducer runs out of fuel. *)
Definition run (args : Args) (files : Files) : option Finished :=
  match read_counts files (counts args) (Some (file_suffix_to_remove args))
          (limit_inputs args) with
  | inl e => Some (mkFinished [] (Some e))
  | inr dfs =>
      let σ := loaded dfs in
      if decide (subcommand args = "concordance-test") then
        '(_, tested) ← concordance_test 0 σ;
        match tested with
        | Raise e => Some (mkFinished [] (Some (Failed e)))
        | Return _ => Some (mkFinished [] None)
        end
      else if decide (subcommand args = "sequential"
                      ∨ subcommand args = "recursive") then
        '(σ, result) ← func (subcommand args) 0 σ;
        match result with
        | Raise e => Some (mkFinished [] (Some (Failed e)))
        | Return result => Some (write_result args (frame σ result))
        end
      else Some (mkFinished [] None)
  end.




(** ** The number of rounds *)

(** Turns of the outer loop of the recursive reducer for [num] tables. *)
Fixpoint num_rounds (fuel num : nat) : nat :=
  match fuel with
  | 0 => 0
  | S fuel => if decide (1 < num) then S (num_rounds fuel (ceil_half num)) else 0
  end.

(** ** Example files *)

(** Two tables that carry the same sample name. *)
Definition two_clashing : Store := loaded [clash_1; clash_2].



(** * Properties of the join *)

Section labels.
Implicit Types l a b : list string.

Lemma sorted_perm l : sorted l ≡ₚ l.
Proof. apply merge_sort_Permutation. Qed.

Lemma sorted_Sorted l : Sorted String.le (sorted l).
Proof. apply (Sorted_merge_sort _). Qed.

Lemma sorted_length l : length (sorted l) = length l.
Proof. by rewrite sorted_perm. Qed.

Lemma elem_of_sorted l x : x ∈ sorted l ↔ x ∈ l.
Proof. by rewrite sorted_perm. Qed.

(** Sorting a list that is already in order changes nothing. *)
Lemma sorted_id l : Sorted String.le l → sorted l = l.
Proof.
  intros Hl. apply (Sorted_unique String.le); auto using sorted_Sorted, sorted_perm.
Qed.

(** The sorted list of a set of labels does not depend on how the set was
    enumerated. *)
Lemma sorted_ext l1 l2 :
  NoDup l1 → NoDup l2 → (∀ x, x ∈ l1 ↔ x ∈ l2) → sorted l1 = sorted l2.
Proof.
  intros H1 H2 H. apply (Sorted_unique String.le); auto using sorted_Sorted.
  rewrite !sorted_perm. by apply NoDup_Permutation.
Qed.

Lemma elem_of_union_keys a b x : x ∈ union_keys a b ↔ x ∈ a ∨ x ∈ b.
Proof.
  unfold union_keys. by rewrite elem_of_sorted, elem_of_remove_dups, elem_of_app.
Qed.

Lemma NoDup_union_keys a b : NoDup (union_keys a b).
Proof. unfold union_keys. rewrite sorted_perm. apply NoDup_remove_dups. Qed.

Lemma union_keys_ext a b a' b' :
  (∀ x, x ∈ a ∨ x ∈ b ↔ x ∈ a' ∨ x ∈ b') → union_keys a b = union_keys a' b'.
Proof.
  intros H. apply sorted_ext; auto using NoDup_remove_dups.
  intros x. by rewrite !elem_of_remove_dups, !elem_of_app.
Qed.

Lemma union_keys_assoc a b c :
  union_keys (union_keys a b) c = union_keys a (union_keys b c).
Proof. apply union_keys_ext. intros x. rewrite !elem_of_union_keys. tauto. Qed.

Lemma merge_columns_length a b :
  length (merge_columns a b) = length a + length b.
Proof. unfold merge_columns. by rewrite length_app, !length_fmap. Qed.

(** Without a shared label no suffix is added. *)
Lemma merge_columns_disjoint a b : a ## b → merge_columns a b = a ++ b.
Proof.
  intros Hab. unfold merge_columns. f_equal.
  - rewrite <-(list_fmap_id a) at 2. apply Forall_fmap_ext, Forall_forall.
    intros c Hc. unfold suffix_overlap. case_decide; [|done]. by destruct (Hab c).
  - rewrite <-(list_fmap_id b) at 2. apply Forall_fmap_ext, Forall_forall.
    intros c Hc. unfold suffix_overlap. case_decide; [|done]. by destruct (Hab c).
Qed.
End labels.

Section rows.
Implicit Types (df left right : DataFrame) (k : string).
Implicit Types rs : list (string * list Value).

Lemma filter_key_nil rs k : k ∉ rs.*1 → filter (λ r, r.1 = k) rs = [].
Proof.
  induction rs as [|[k' r] rs IH]; [done|].
  rewrite fmap_cons, not_elem_of_cons. intros [Hk Hrs].
  rewrite filter_cons. case_decide; simplify_eq/=; auto.
Qed.

Lemma filter_key_elem_of rs k r :
  NoDup rs.*1 → (k, r) ∈ rs → filter (λ r, r.1 = k) rs = [(k, r)].
Proof.
  induction rs as [|[k' r'] rs IH]; [by intros _ ?%elem_of_nil|].
  rewrite fmap_cons, NoDup_cons, elem_of_cons. intros [Hk' Hrs] Hin.
  rewrite filter_cons. simpl. case_decide as Hk.
  - subst k'. rewrite filter_key_nil by done.
    destruct Hin as [?|Hin]; [congruence|].
    destruct Hk'. apply list_elem_of_fmap. by exists (k, r).
  - destruct Hin as [?|Hin]; [congruence|auto].
Qed.

Lemma lookup_row_None df k : k ∉ index df → lookup_row df k = None.
Proof.
  intros Hk. unfold lookup_row, rows_at. by rewrite filter_key_nil.
Qed.

Lemma lookup_row_Some df k r :
  unique_keys df → (k, r) ∈ rows df → lookup_row df k = Some r.
Proof.
  intros Hdf Hin. unfold lookup_row, rows_at.
  by rewrite (filter_key_elem_of _ _ r).
Qed.

Lemma lookup_row_is_Some df k : k ∈ index df → is_Some (lookup_row df k).
Proof.
  unfold index, lookup_row, rows_at.
  induction (rows df) as [|[k' r] rs IH]; [by intros ?%elem_of_nil|].
  rewrite fmap_cons, elem_of_cons, filter_cons. simpl. intros Hk.
  case_decide; [by eexists|]. apply IH. by destruct Hk.
Qed.

Lemma row_blank df k : k ∉ index df → row df k = blank df.
Proof. intros Hk. unfold row. by rewrite lookup_row_None. Qed.

(** With unique row labels a key matches exactly one row on each side of a
    join: its own, or a row of missing cells. *)
Lemma matching_unique df k : unique_keys df → matching df k = [row df k].
Proof.
  intros Hdf. unfold matching, row, lookup_row.
  destruct (decide (k ∈ index df)) as [Hk|Hk].
  - apply list_elem_of_fmap in Hk as [[k' r] [-> Hin]]. unfold rows_at.
    by rewrite (filter_key_elem_of _ _ r).
  - unfold rows_at. by rewrite filter_key_nil.
Qed.

Lemma filter_key_fmap (f : string → list Value) (ks : list string) k :
  NoDup ks →
  filter (λ r, r.1 = k) ((λ k, (k, f k)) <$> ks)
  = if decide (k ∈ ks) then [(k, f k)] else [].
Proof.
  intros Hks. case_decide as Hk.
  - apply filter_key_elem_of.
    + by rewrite <-list_fmap_compose, list_fmap_id.
    + apply list_elem_of_fmap. by exists k.
  - apply filter_key_nil. by rewrite <-list_fmap_compose, list_fmap_id.
Qed.

Lemma merge_rows left right :
  unique_keys left → unique_keys right →
  rows (merge left right)
  = (λ k, (k, row left k ++ row right k))
      <$> union_keys (index left) (index right).
Proof.
  intros Hl Hr. unfold merge. simpl.
  induction (union_keys (index left) (index right)) as [|k ks IH]; [done|].
  rewrite bind_cons, IH, !matching_unique by done. done.
Qed.

Lemma merge_index left right :
  unique_keys left → unique_keys right →
  index (merge left right) = union_keys (index left) (index right).
Proof.
  intros. unfold index. rewrite merge_rows by done.
  by rewrite <-list_fmap_compose, list_fmap_id.
Qed.

Lemma merge_unique_keys left right :
  unique_keys left → unique_keys right → unique_keys (merge left right).
Proof.
  intros. unfold unique_keys. rewrite merge_index by done.
  apply NoDup_union_keys.
Qed.

Lemma merge_shape left right :
  unique_keys left → unique_keys right →
  shape (merge left right)
  = (length (union_keys (index left) (index right)),
     length (columns left) + length (columns right)).
Proof.
  intros. unfold shape. rewrite <-merge_index by done.
  unfold index. rewrite length_fmap. simpl. by rewrite merge_columns_length.
Qed.

(** The row of a join is the left row followed by the right row, for every
    key, present or not. *)
Lemma merge_row left right k :
  unique_keys left → unique_keys right →
  row (merge left right) k = row left k ++ row right k.
Proof.
  intros Hl Hr. unfold row at 1, lookup_row, rows_at.
  rewrite merge_rows, filter_key_fmap by auto using NoDup_union_keys.
  case_decide as Hk; [done|]. simpl.
  rewrite elem_of_union_keys in Hk.
  rewrite !row_blank by tauto. unfold blank. simpl.
  by rewrite merge_columns_length, replicate_add.
Qed.

Lemma row_length df k : wf df → length (row df k) = length (columns df).
Proof.
  intros Hwf. unfold row, lookup_row, rows_at, blank.
  destruct (filter _ _) as [|[k' r] rs] eqn:Hf; simpl.
  - by rewrite length_replicate.
  - assert ((k', r) ∈ filter (λ r, r.1 = k) (rows df)) as Hin.
    { rewrite Hf. left. }
    apply list_elem_of_filter in Hin as [_ Hin].
    by apply (proj1 (Forall_forall _ _) Hwf) in Hin.
Qed.

Lemma merge_wf left right :
  unique_keys left → unique_keys right → wf left → wf right →
  wf (merge left right).
Proof.
  intros Hl Hr Hwl Hwr. unfold wf. rewrite merge_rows by done.
  apply Forall_fmap, Forall_forall. intros k _. simpl.
  by rewrite length_app, !row_length, merge_columns_length.
Qed.

(** The join is associative on frames whose labels do not clash. *)
Lemma merge_assoc a b c :
  unique_keys a → unique_keys b → unique_keys c →
  columns a ## columns b → columns a ## columns c → columns b ## columns c →
  merge (merge a b) c = merge a (merge b c).
Proof.
  intros Ha Hb Hc Hab Hac Hbc.
  assert (columns (merge (merge a b) c) = columns (merge a (merge b c))) as Hcols.
  { simpl. rewrite (merge_columns_disjoint (columns a)), (merge_columns_disjoint (columns b)) by done.
    rewrite !merge_columns_disjoint, (assoc_L (++)); [done| |].
    - intros x Hx. rewrite elem_of_app. intros [?|?]; [by eapply Hab|by eapply Hac].
    - intros x. rewrite elem_of_app. intros [?|?] ?; [by eapply Hac|by eapply Hbc]. }
  assert (rows (merge (merge a b) c) = rows (merge a (merge b c))) as Hrows.
  { rewrite !(merge_rows _ _) by auto using merge_unique_keys.
    rewrite !merge_index, union_keys_assoc by done.
    apply Forall_fmap_ext, Forall_forall. intros k _.
    by rewrite !merge_row, (assoc_L (++)) by done. }
  destruct (merge (merge a b) c), (merge a (merge b c)). simpl in *. congruence.
Qed.
End rows.

Section cells.
Implicit Types (df left right : DataFrame) (k c : string).

Lemma label_pos_Some c (labels : list string) i :
  label_pos c labels = Some i → labels !! i = Some c.
Proof.
  revert i. induction labels as [|c' labels IH]; intros i; simpl; [done|].
  case_decide; [by intros [= <-]; subst|].
  destruct (label_pos c labels); intros [= <-]. by apply IH.
Qed.

Lemma label_pos_None c (labels : list string) :
  label_pos c labels = None ↔ c ∉ labels.
Proof.
  induction labels as [|c' labels IH]; simpl.
  - split; [intros _; apply not_elem_of_nil|done].
  - rewrite not_elem_of_cons. case_decide.
    + split; [done|]. intros [? _]. congruence.
    + rewrite fmap_None, IH. naive_solver.
Qed.

Lemma label_pos_is_Some c (labels : list string) :
  c ∈ labels → is_Some (label_pos c labels).
Proof.
  intros Hc. destruct (label_pos c labels) eqn:Hp; [by eexists|].
  by apply label_pos_None in Hp.
Qed.

Lemma label_pos_app_l c (a b : list string) i :
  label_pos c a = Some i → label_pos c (a ++ b) = Some i.
Proof.
  revert i. induction a as [|c' a IH]; intros i; simpl; [done|].
  case_decide; [done|].
  destruct (label_pos c a); intros [= <-]. by rewrite (IH n).
Qed.

Lemma label_pos_app_r c (a b : list string) i :
  c ∉ a → label_pos c b = Some i → label_pos c (a ++ b) = Some (length a + i).
Proof.
  intros Ha Hb. induction a as [|c' a IH]; simpl; [done|].
  apply not_elem_of_cons in Ha as [? ?].
  case_decide; [congruence|]. by rewrite IH.
Qed.

Lemma cell_None_index df k c : k ∉ index df → cell df k c = None.
Proof. intros Hk. unfold cell. by rewrite lookup_row_None. Qed.

Lemma cell_None_columns df k c : c ∉ columns df → cell df k c = None.
Proof.
  intros Hc. unfold cell. apply label_pos_None in Hc. rewrite Hc.
  by destruct (lookup_row df k).
Qed.

Lemma get_None_index df k c : k ∉ index df → get df k c = None.
Proof. intros Hk. unfold get. by rewrite cell_None_index. Qed.

(** Reading the padded row at the position of a label gives the value of
    that cell, missing included. *)
Lemma row_lookup_get df k c i :
  wf df → label_pos c (columns df) = Some i →
  row df k !! i = Some (get df k c).
Proof.
  intros Hwf Hi. pose proof (row_length df k Hwf) as Hlen.
  pose proof (lookup_lt_Some _ _ _ (label_pos_Some _ _ _ Hi)) as Hlt.
  unfold get, cell, row in *. rewrite Hi.
  destruct (lookup_row df k) as [r|]; simpl in *.
  - destruct (lookup_lt_is_Some_2 r i) as [v Hv]; [lia|]. by rewrite Hv.
  - unfold blank. by rewrite lookup_replicate_2.
Qed.

Lemma cell_get df k c :
  wf df → k ∈ index df → c ∈ columns df → cell df k c = Some (get df k c).
Proof.
  intros Hwf Hk Hc. destruct (label_pos_is_Some _ _ Hc) as [i Hi].
  rewrite <-(row_lookup_get df k c i) by done.
  destruct (lookup_row_is_Some _ _ Hk) as [r Hr].
  unfold cell, row. rewrite Hr, Hi. done.
Qed.

Lemma lookup_row_merge left right k :
  unique_keys left → unique_keys right →
  k ∈ index left ∨ k ∈ index right →
  lookup_row (merge left right) k = Some (row left k ++ row right k).
Proof.
  intros Hl Hr Hk. unfold lookup_row, rows_at.
  rewrite merge_rows, filter_key_fmap by auto using NoDup_union_keys.
  rewrite decide_True; [done|]. by apply elem_of_union_keys.
Qed.

Lemma cell_merge_l left right k c :
  unique_keys left → unique_keys right → wf left →
  columns left ## columns right →
  k ∈ index left ∨ k ∈ index right → c ∈ columns left →
  cell (merge left right) k c = Some (get left k c).
Proof.
  intros Hl Hr Hwf Hd Hk Hc. destruct (label_pos_is_Some _ _ Hc) as [i Hi].
  unfold cell. rewrite lookup_row_merge by done. simpl.
  rewrite merge_columns_disjoint, (label_pos_app_l _ _ _ i) by done. simpl.
  rewrite lookup_app_l, (row_lookup_get _ _ c); [done..|].
  rewrite row_length by done. by eapply lookup_lt_Some, label_pos_Some.
Qed.

Lemma cell_merge_r left right k c :
  unique_keys left → unique_keys right → wf left → wf right →
  columns left ## columns right →
  k ∈ index left ∨ k ∈ index right → c ∈ columns right →
  cell (merge left right) k c = Some (get right k c).
Proof.
  intros Hl Hr Hwl Hwr Hd Hk Hc. destruct (label_pos_is_Some _ _ Hc) as [i Hi].
  unfold cell. rewrite lookup_row_merge by done. simpl.
  rewrite merge_columns_disjoint, (label_pos_app_r _ _ _ i) by naive_solver.
  simpl. rewrite lookup_app_r; rewrite row_length by done; [|lia].
  replace (length (columns left) + i - length (columns left)) with i by lia.
  by apply row_lookup_get.
Qed.

Lemma same_content_intro a b :
  (∀ k, k ∈ index a ↔ k ∈ index b) →
  (∀ c, c ∈ columns a ↔ c ∈ columns b) →
  (∀ k c, k ∈ index a → c ∈ columns a → cell a k c = cell b k c) →
  same_content a b.
Proof.
  intros Hk Hc Hcell. split_and!; [done..|]. intros k c.
  destruct (decide (k ∈ index a)) as [Hka|Hka].
  - destruct (decide (c ∈ columns a)) as [Hca|Hca]; [auto|].
    rewrite !cell_None_columns; [done|by rewrite <-Hc|done].
  - rewrite !cell_None_index; [done|by rewrite <-Hk|done].
Qed.
End cells.

(** ** The join of several tables, as a relation *)

Section joint.
Implicit Types (m : DataFrame) (tables : list DataFrame).

Lemma joint_content_single t : wf t → joint_content [t] t.
Proof.
  intros Hwf. split_and!.
  - intros k. setoid_rewrite list_elem_of_singleton. naive_solver.
  - intros c. setoid_rewrite list_elem_of_singleton. naive_solver.
  - intros t' k c ->%list_elem_of_singleton ??. by apply cell_get.
Qed.

Lemma joint_content_merge xs ys m1 m2 :
  unique_keys m1 → unique_keys m2 → wf m1 → wf m2 →
  columns m1 ## columns m2 →
  joint_content xs m1 → joint_content ys m2 →
  joint_content (xs ++ ys) (merge m1 m2).
Proof.
  intros Hu1 Hu2 Hw1 Hw2 Hd (Hk1 & Hc1 & Hv1) (Hk2 & Hc2 & Hv2).
  assert (∀ k, k ∈ index (merge m1 m2) ↔ k ∈ index m1 ∨ k ∈ index m2) as Hk.
  { intros k. by rewrite merge_index, elem_of_union_keys. }
  split_and!.
  - intros k. rewrite Hk, Hk1, Hk2. setoid_rewrite elem_of_app. naive_solver.
  - intros c. simpl. rewrite merge_columns_disjoint, elem_of_app, Hc1, Hc2 by done.
    setoid_rewrite elem_of_app. naive_solver.
  - intros t k c Ht Hkm Hc. apply Hk in Hkm. apply elem_of_app in Ht as [Ht|Ht].
    + rewrite cell_merge_l by (done || (apply Hc1; eauto)). f_equal.
      destruct (decide (k ∈ index m1)) as [Hin|Hin].
      * unfold get at 1. by rewrite (Hv1 t).
      * rewrite !get_None_index; [done| |done].
        intros Hkt. apply Hin, Hk1. eauto.
    + rewrite cell_merge_r by (done || (apply Hc2; eauto)). f_equal.
      destruct (decide (k ∈ index m2)) as [Hin|Hin].
      * unfold get at 1. by rewrite (Hv2 t).
      * rewrite !get_None_index; [done| |done].
        intros Hkt. apply Hin, Hk2. eauto.
Qed.

Lemma joint_content_perm tables tables' m :
  tables ≡ₚ tables' → joint_content tables m → joint_content tables' m.
Proof.
  intros Hp (Hk & Hc & Hv). split_and!.
  - intros k. rewrite Hk. by setoid_rewrite Hp.
  - intros c. rewrite Hc. by setoid_rewrite Hp.
  - intros t k c Ht. apply Hv. by rewrite Hp.
Qed.

(** Two frames that are joins of the same tables have the same content. *)
Lemma joint_content_same tables m m' :
  joint_content tables m → joint_content tables m' → same_content m m'.
Proof.
  intros (Hk & Hc & Hv) (Hk' & Hc' & Hv'). apply same_content_intro.
  - intros k. by rewrite Hk, Hk'.
  - intros c. by rewrite Hc, Hc'.
  - intros k c Hkm [t [Ht Hct]]%Hc.
    rewrite (Hv t), (Hv' t); auto. apply Hk', Hk, Hkm.
Qed.
End joint.

(** * The reducers, step by step *)

(** ** One pairing round *)

Lemma pair_ind {A} (P : list A → Prop) :
  P [] → (∀ x, P [x]) → (∀ x y l, P l → P (x :: y :: l)) → ∀ l, P l.
Proof.
  intros H0 H1 H2. fix IH 1. intros [|x [|y l]]; [exact H0|exact (H1 x)|].
  exact (H2 x y l (IH l)).
Qed.

Lemma ceil_half_SS n : ceil_half (S (S n)) = S (ceil_half n).
Proof.
  unfold ceil_half. replace (S (S n) + 1) with ((n + 1) + 1 * 2) by lia.
  rewrite Nat.div_add by done. lia.
Qed.

Lemma ceil_half_lt n : 1 < n → ceil_half n < n.
Proof.
  intros Hn. unfold ceil_half. apply Nat.Div0.div_lt_upper_bound. lia.
Qed.

Lemma ceil_half_pos n : 0 < n → 0 < ceil_half n.
Proof.
  intros Hn. unfold ceil_half. apply Nat.div_str_pos. lia.
Qed.

Section pairing.
Implicit Types (σ : Store) (content l : list nat) (fs : list DataFrame).

Lemma pair_up_length (tables : list DataFrame) :
  length (pair_up tables) = ceil_half (length tables).
Proof.
  induction tables as [|x|x y l IH] using pair_ind; [done..|].
  cbn [pair_up length]. by rewrite IH, ceil_half_SS.
Qed.

Lemma pair_refs_length base content :
  length (pair_refs base content) = ceil_half (length content).
Proof.
  revert base. induction content as [|x|x y l IH] using pair_ind;
    intros base; [done..|].
  cbn [pair_refs length]. by rewrite IH, ceil_half_SS.
Qed.

Lemma pair_frames_length fs content :
  length (pair_frames fs content) = length content / 2.
Proof.
  induction content as [|x|x y l IH] using pair_ind; [done..|].
  cbn [pair_frames length]. rewrite IH.
  replace (S (S (length l))) with (length l + 1 * 2) by lia.
  rewrite Nat.div_add by done. lia.
Qed.

(** Frames appended to the store do not change what older references
    denote. *)
Lemma pair_frames_app fs more content :
  Forall (λ r, r < length fs) content →
  pair_frames (fs ++ more) content = pair_frames fs content.
Proof.
  induction content as [|x|x y l IH] using pair_ind; [done..|].
  intros Hv. apply Forall_cons in Hv as [Hx Hv].
  apply Forall_cons in Hv as [Hy Hv].
  simpl. by rewrite IH, !lookup_total_app_l.
Qed.

(** The inner loop in closed form: it empties the list it pops from,
    appends one reference per step to [merged_dfs], allocates one frame per
    pair and calls [pbar.update()] once per step. *)
Lemma pairing_loop_closed content dfs merged_dfs σ n :
  content ≠ [] → dfs ≠ merged_dfs →
  dfs < length (lists σ) → merged_dfs < length (lists σ) →
  valid σ content →
  pairing_loop content dfs merged_dfs σ n
  = (mkStore (frames σ ++ pair_frames (frames σ) content)
       (<[merged_dfs := list_at σ merged_dfs
                        ++ pair_refs (length (frames σ)) content]>
          (<[dfs := []]> (lists σ))),
     n + ceil_half (length content)).
Proof.
  revert σ n. induction content as [|x|x y l IH] using pair_ind;
    intros σ n Hne Hd Hdfs Hm Hv; [done| |].
  - simpl. unfold list_append, set_list, list_at. simpl.
    rewrite list_lookup_total_insert_ne, app_nil_r by done.
    do 2 f_equal. unfold ceil_half. simpl. lia.
  - apply Forall_cons in Hv as [Hx Hv]. apply Forall_cons in Hv as [Hy Hv].
    cbn [pairing_loop]. unfold new_frame, list_append, set_list, list_at.
    cbn [frames lists fst snd].
    rewrite list_insert_insert_eq, list_lookup_total_insert_ne by done.
    cbn [pair_frames pair_refs length]. rewrite ceil_half_SS.
    destruct (decide (l = [])) as [->|Hl].
    + cbn [pairing_loop pair_frames pair_refs length].
      do 2 f_equal. unfold ceil_half; simpl; lia.
    + rewrite IH; cbn [frames lists]; rewrite ?length_insert; try done.
      * unfold list_at, frame. cbn [frames lists].
        rewrite list_lookup_total_insert_eq by (by rewrite length_insert).
        rewrite list_insert_insert_ne, list_insert_insert_eq by done.
        rewrite list_insert_insert_ne, list_insert_insert_eq by done.
        rewrite pair_frames_app by done.
        rewrite length_app, <-!(assoc_L (++)). simpl.
        replace (length (frames σ) + 1) with (S (length (frames σ))) by lia.
        do 2 f_equal. lia.
      * unfold valid. cbn [frames]. rewrite length_app.
        eapply Forall_impl; [exact Hv|]. simpl. lia.
Qed.
End pairing.

(** ** The rounds *)

Section rounds.
Implicit Types (σ : Store) (content l : list nat) (fs more : list DataFrame).

Lemma pair_refs_head base l : 1 < length l → head (pair_refs base l) = Some base.
Proof. destruct l as [|x [|y l]]; simpl; [lia..|done]. Qed.

Lemma pair_refs_valid fs more l :
  Forall (λ r, r < length fs) l →
  Forall (λ r, r < length fs + length more + length (pair_frames fs l))
    (pair_refs (length fs + length more) l).
Proof.
  revert more. induction l as [|x|x y l IH] using pair_ind; intros more Hv.
  - constructor.
  - eapply Forall_impl; [exact Hv|]. simpl. lia.
  - do 2 apply Forall_cons in Hv as [_ Hv]. cbn [pair_refs pair_frames length].
    constructor; [lia|].
    specialize (IH (more ++ [merge (fs !!! x) (fs !!! y)]) Hv).
    rewrite length_app in IH. simpl in IH.
    replace (S (length fs + length more)) with (length fs + (length more + 1)) by lia.
    eapply Forall_impl; [exact IH|]. simpl. lia.
Qed.

Lemma pair_refs_tables fs more l :
  Forall (λ r, r < length fs) l →
  ((fs ++ more ++ pair_frames fs l) !!!.) <$> pair_refs (length fs + length more) l
  = pair_up ((fs !!!.) <$> l).
Proof.
  revert more. induction l as [|x|x y l IH] using pair_ind; intros more Hv.
  - done.
  - apply Forall_cons in Hv as [Hx _]. simpl. by rewrite lookup_total_app_l.
  - do 2 apply Forall_cons in Hv as [_ Hv].
    cbn [pair_refs pair_frames pair_up fmap list_fmap]. f_equal.
    + rewrite (assoc_L (++)), <-length_app. by rewrite list_lookup_total_middle.
    + specialize (IH (more ++ [merge (fs !!! x) (fs !!! y)]) Hv).
      rewrite length_app in IH. simpl in IH.
      replace (S (length fs + length more)) with (length fs + (length more + 1)) by lia.
      rewrite <-IH. by rewrite <-(assoc_L (++)).
Qed.

(** One turn of the outer loop. *)
Lemma rounds_loop_step fuel dfs σ n :
  1 < length (list_at σ dfs) → dfs < length (lists σ) →
  valid σ (list_at σ dfs) →
  rounds_loop (S fuel) dfs σ n
  = rounds_loop fuel (length (lists σ))
      (mkStore (frames σ ++ pair_frames (frames σ) (list_at σ dfs))
         (<[dfs := []]> (lists σ)
          ++ [pair_refs (length (frames σ)) (list_at σ dfs)]))
      (n + ceil_half (length (list_at σ dfs))).
Proof.
  intros Hlen Hdfs Hv. cbn [rounds_loop]. rewrite decide_True by done.
  unfold new_list.
  assert (list_at {| frames := frames σ; lists := lists σ ++ [[]] |} dfs
          = list_at σ dfs) as Hl.
  { unfold list_at. simpl. by rewrite lookup_total_app_l. }
  rewrite Hl, pairing_loop_closed; cbn [frames lists];
    rewrite ?length_app; simpl; try lia; try done.
  - do 2 f_equal. unfold list_at. cbn [lists].
    rewrite list_lookup_total_middle by done. simpl.
    rewrite insert_app_l by done.
    rewrite insert_app_r_alt by (by rewrite length_insert).
    rewrite length_insert, Nat.sub_diag. done.
  - intros E. rewrite E in Hlen. simpl in Hlen. lia.
Qed.
End rounds.

Section rounds_spec.
Implicit Types (σ : Store) (content l : list nat) (fs more : list DataFrame).

Lemma rounds_loop_spec fuel : ∀ dfs σ n,
  length (list_at σ dfs) ≤ fuel → list_at σ dfs ≠ [] →
  dfs < length (lists σ) → valid σ (list_at σ dfs) →
  ∃ dfs' σ' n' r,
    rounds_loop fuel dfs σ n = Some (dfs', σ', n')
    ∧ rounds_post fuel dfs σ n dfs' σ' n' r.
Proof.
  induction fuel as [|fuel IH]; intros dfs σ n Hfuel Hne Hdfs Hv.
  { destruct (list_at σ dfs); simpl in *; [done|lia]. }
  destruct (decide (1 < length (list_at σ dfs))) as [Hlen|Hlen].
  - rewrite rounds_loop_step by done.
    set (l := list_at σ dfs) in *.
    set (σ1 := mkStore _ _). set (dfs1 := length (lists σ)).
    assert (list_at σ1 dfs1 = pair_refs (length (frames σ)) l) as Hl1.
    { unfold list_at, σ1, dfs1. cbn [lists].
      rewrite <-(length_insert (lists σ) dfs []).
      by rewrite list_lookup_total_middle. }
    assert (tables_of σ1 (list_at σ1 dfs1) = pair_up (tables_of σ l)) as Ht1.
    { rewrite Hl1. unfold tables_of, σ1, frame. cbn [frames].
      pose proof (pair_refs_tables (frames σ) [] l Hv) as Ht.
      simpl in Ht. rewrite Nat.add_0_r in Ht. exact Ht. }
    assert (valid σ1 (list_at σ1 dfs1)) as Hv1.
    { rewrite Hl1. unfold valid, σ1. cbn [frames].
      pose proof (pair_refs_valid (frames σ) [] l Hv) as Hv'.
      simpl in Hv'. rewrite !Nat.add_0_r in Hv'. by rewrite length_app. }
    assert (length (list_at σ1 dfs1) = ceil_half (length l)) as Hlen1.
    { by rewrite Hl1, pair_refs_length. }
    pose proof (ceil_half_lt _ Hlen) as Hlt.
    pose proof (ceil_half_pos (length l) ltac:(lia)) as Hpos.
    destruct (IH dfs1 σ1 (n + ceil_half (length l)))
      as (dfs' & σ' & n' & r & Hrun & Hpost).
    + lia.
    + intros E. rewrite E in Hlen1. simpl in Hlen1. lia.
    + unfold σ1, dfs1. cbn [lists]. rewrite length_app, length_insert. simpl. lia.
    + done.
    + exists dfs', σ', n', r. split; [done|].
      destruct Hpost as [Pn Pl Pt (news & Pf & Pfl) Ps Pfr Pv Pls].
      assert (lists σ' !! dfs = Some []) as Hdfs'.
      { rewrite Pls.
        - unfold σ1. cbn [lists]. rewrite lookup_app_l by (by rewrite length_insert).
          by rewrite list_lookup_insert_eq.
        - unfold σ1, dfs1. cbn [lists]. rewrite length_app, length_insert. simpl. lia.
        - unfold dfs1. lia. }
      split; fold l.
      * rewrite Pn, Hlen1. cbn [iterations]. rewrite decide_True by done. lia.
      * done.
      * rewrite Pt, Ht1. cbn [reduce]. by rewrite decide_True by (by unfold tables_of; rewrite length_fmap).
      * exists (pair_frames (frames σ) l ++ news). split.
        -- rewrite Pf. unfold σ1. cbn [frames]. by rewrite (assoc_L (++)).
        -- rewrite length_app, pair_frames_length.
           rewrite Hlen1 in Pfl. unfold ceil_half in Pfl.
           pose proof (Nat.div_mod_eq (length l) 2) as E1.
           pose proof (Nat.div_mod_eq (length l + 1) 2) as E2.
           pose proof (Nat.mod_upper_bound (length l) 2 ltac:(lia)).
           pose proof (Nat.mod_upper_bound (length l + 1) 2 ltac:(lia)).
           lia.
      * lia.
      * intros _. split.
        -- destruct (decide (1 < length (list_at σ1 dfs1))) as [H1|H1].
           ++ destruct (Pfr H1) as [Hr _]. unfold σ1 in Hr. cbn [frames] in Hr.
              rewrite length_app in Hr. lia.
           ++ destruct Ps as [-> ->]; [lia|].
              rewrite Hl1 in Pl. pose proof (pair_refs_head (length (frames σ)) l Hlen) as Hh.
              rewrite Pl in Hh. simpl in Hh. injection Hh as ->. done.
        -- unfold list_at. by rewrite list_lookup_total_alt, Hdfs'.
      * done.
      * intros d Hd Hdd. rewrite Pls.
        -- unfold σ1. cbn [lists]. rewrite lookup_app_l by (rewrite length_insert; lia).
           by rewrite list_lookup_insert_ne.
        -- unfold σ1. cbn [lists]. rewrite length_app, length_insert. simpl. lia.
        -- unfold dfs1. lia.
  - destruct (list_at σ dfs) as [|r [|r' l']] eqn:Hl;
      [done| |simpl in Hlen; lia].
    exists dfs, σ, n, r. split.
    { cbn [rounds_loop]. rewrite Hl. by rewrite decide_False by (simpl; lia). }
    split; rewrite ?Hl; cbn [length iterations reduce tables_of fmap list_fmap].
    + rewrite decide_False by lia. lia.
    + done.
    + by rewrite decide_False by (simpl; lia).
    + exists []. by rewrite app_nil_r.
    + done.
    + lia.
    + by apply Forall_cons in Hv as [? _].
    + done.
Qed.
End rounds_spec.

(** ** The loops of the two reducers *)

Section loops.
Implicit Types (σ : Store) (l : list nat).

Lemma count_iterations_spec fuel : ∀ num acc,
  num ≤ fuel →
  count_iterations fuel num acc = Some (acc + iterations fuel num).
Proof.
  induction fuel as [|fuel IH]; intros num acc Hfuel.
  - simpl. rewrite decide_False by lia. f_equal. lia.
  - cbn [count_iterations iterations]. case_decide as Hnum; [|f_equal; lia].
    rewrite IH by (pose proof (ceil_half_lt _ Hnum); lia). f_equal. lia.
Qed.

(** The sequential loop once [result] is set: one frame per remaining
    table, each the join of the previous result with the next table. *)
Lemma sequential_loop_spec l : ∀ r σ,
  r < length (frames σ) → valid σ l →
  ∃ news r',
    sequential_loop l (Some r) σ
    = (mkStore (frames σ ++ news) (lists σ), Some r')
    ∧ length news = length l
    ∧ r' < length (frames σ ++ news)
    ∧ (frames σ ++ news) !!! r' = foldl merge (frame σ r) (tables_of σ l)
    ∧ (l = [] → r' = r)
    ∧ (l ≠ [] → length (frames σ) ≤ r').
Proof.
  induction l as [|x l IH]; intros r σ Hr Hv.
  - exists [], r. rewrite app_nil_r. destruct σ. simpl. by split_and!.
  - apply Forall_cons in Hv as [Hx Hv]. cbn [sequential_loop new_frame].
    set (m := merge (frame σ r) (frame σ x)).
    destruct (IH (length (frames σ)) (mkStore (frames σ ++ [m]) (lists σ)))
      as (news & r' & Hrun & Hlen & Hr' & Hval & _ & Hfresh).
    { cbn [frames]. rewrite length_app. simpl. lia. }
    { unfold valid. cbn [frames]. rewrite length_app.
      eapply Forall_impl; [exact Hv|]. simpl. lia. }
    cbn [frames lists] in *. rewrite <-(assoc_L (++)) in *.
    exists ([m] ++ news), r'. split_and!; try done.
    + rewrite length_app. simpl. lia.
    + rewrite Hval. cbn [tables_of fmap list_fmap foldl]. f_equal.
      * unfold frame. cbn [frames]. by rewrite list_lookup_total_middle.
      * apply Forall_fmap_ext, Forall_forall. intros y Hy.
        unfold frame. cbn [frames]. rewrite lookup_total_app_l; [done|].
        by apply (proj1 (Forall_forall _ _) Hv).
    + intros _. destruct (decide (l = [])) as [->|Hl].
      * simpl in Hrun. injection Hrun as _ <-. lia.
      * specialize (Hfresh Hl). rewrite length_app in Hfresh. simpl in Hfresh. lia.
Qed.
End loops.

(** ** The reducers as a whole *)

Section reducers.
Implicit Types (σ : Store) (l : list nat).

Lemma join_dataframes_sequentially_spec dfs σ x l :
  list_at σ dfs = x :: l → valid σ (x :: l) →
  ∃ news r,
    let σ' := mkStore (frames σ ++ news) (lists σ) in
    join_dataframes_sequentially dfs σ
    = (σ', check_shape r (expected_shape σ dfs) σ')
    ∧ length news = length l
    ∧ r < length (frames σ')
    ∧ frame σ' r = foldl merge (frame σ x) (tables_of σ l)
    ∧ (l = [] → r = x)
    ∧ (l ≠ [] → length (frames σ) ≤ r).
Proof.
  intros Hl Hv. apply Forall_cons in Hv as [Hx Hv].
  destruct (sequential_loop_spec l x σ Hx Hv)
    as (news & r & Hrun & Hlen & Hr & Hval & Hnil & Hfresh).
  exists news, r. split_and!; try done.
  unfold join_dataframes_sequentially, expected_shape.
  rewrite Hl. cbn [length sequential_loop]. rewrite decide_False by lia.
  by rewrite Hrun.
Qed.

Lemma join_dataframes_recursively_spec dfs σ :
  call_ok σ dfs → list_at σ dfs ≠ [] →
  let num := length (list_at σ dfs) in
  ∃ dfs' σ' r,
    rounds_loop num dfs σ 0 = Some (dfs', σ', iterations num num)
    ∧ rounds_post num dfs σ 0 dfs' σ' (iterations num num) r
    ∧ let σ'' := set_columns r (sorted (columns (frame σ' r))) σ' in
      join_dataframes_recursively dfs σ
      = Some (mkRun σ'' (Some (iterations num num, iterations num num))
                (check_shape r (expected_shape σ dfs) σ''))
      ∧ frame σ'' r = relabel_sorted (frame σ' r).
Proof.
  intros [Hdfs Hv] Hne num.
  destruct (rounds_loop_spec num dfs σ 0) as (dfs' & σ' & n' & r & Hrun & Hpost);
    [done..|].
  pose proof (post_n _ _ _ _ _ _ _ _ Hpost) as Hn. simpl in Hn. subst n'.
  exists dfs', σ', r. split; [done|]. split; [done|]. split.
  - unfold join_dataframes_recursively. fold num.
    rewrite decide_False
      by (unfold num; destruct (list_at σ dfs); simpl; [done|lia]).
    rewrite count_iterations_spec by done. simpl.
    rewrite Hrun. simpl.
    rewrite (post_list _ _ _ _ _ _ _ _ Hpost). by rewrite decide_True.
  - unfold frame, set_columns. cbn [frames].
    rewrite list_lookup_total_insert_eq; [done|].
    apply (post_valid _ _ _ _ _ _ _ _ Hpost).
Qed.
End reducers.

(** ** Properties that joins carry from the inputs to the result

    [I inputs m] reads "[m] stands for the inputs [inputs]". When a join of
    two frames stands for the inputs of both, in order, so does whatever
    either reducer builds. *)
Section invariant.
Variable I : list DataFrame → DataFrame → Prop.
Hypothesis I_merge : ∀ xs ys a b,
  I xs a → I ys b → I (xs ++ ys) (merge a b).

Lemma pair_up_inv (groups : list (list DataFrame)) (tables : list DataFrame) :
  Forall2 I groups tables →
  ∃ groups', Forall2 I groups' (pair_up tables) ∧ concat groups' = concat groups.
Proof.
  revert groups. induction tables as [|x|x y l IH] using pair_ind;
    intros groups Hg.
  - exists groups. by inversion Hg.
  - exists groups. split; [done|done].
  - apply Forall2_cons_inv_r in Hg as (gx & groups1 & Hx & Hg & ->).
    apply Forall2_cons_inv_r in Hg as (gy & groups2 & Hy & Hg & ->).
    destruct (IH _ Hg) as (groups' & Hg' & Hc).
    exists ((gx ++ gy) :: groups'). split.
    + cbn [pair_up]. constructor; auto.
    + simpl. by rewrite Hc, (assoc_L (++)).
Qed.

Lemma reduce_inv fuel : ∀ (groups : list (list DataFrame)) tables,
  Forall2 I groups tables →
  ∃ groups', Forall2 I groups' (reduce fuel tables)
             ∧ concat groups' = concat groups.
Proof.
  induction fuel as [|fuel IH]; intros groups tables Hg; [by exists groups|].
  cbn [reduce]. case_decide; [|by exists groups].
  destruct (pair_up_inv _ _ Hg) as (groups1 & Hg1 & Hc1).
  destruct (IH _ _ Hg1) as (groups' & Hg' & Hc').
  exists groups'. split; [done|congruence].
Qed.

(** The recursive reducer's converged table stands for all inputs. *)
Lemma reduce_singleton_inv fuel tables m :
  Forall (λ t, I [t] t) tables → reduce fuel tables = [m] → I tables m.
Proof.
  intros Ht Hr.
  destruct (reduce_inv fuel ((λ t, [t]) <$> tables) tables) as (groups' & Hg & Hc).
  { apply Forall2_fmap_l, Forall_Forall2_diag, Ht. }
  rewrite Hr in Hg.
  apply Forall2_cons_inv_r in Hg as (g & rest & Hm & Hnil & ->).
  apply Forall2_nil_inv_r in Hnil as ->.
  assert (concat ((λ t, [t]) <$> tables) = tables) as Hflat.
  { clear. induction tables as [|t tables IH]; [done|].
    rewrite fmap_cons. cbn [concat app]. by rewrite IH. }
  rewrite Hflat in Hc. simpl in Hc. rewrite app_nil_r in Hc. by subst g.
Qed.

(** So does the sequential reducer's. *)
Lemma foldl_merge_inv xs a rest :
  I xs a → Forall (λ t, I [t] t) rest → I (xs ++ rest) (foldl merge a rest).
Proof.
  revert xs a. induction rest as [|t rest IH]; intros xs a Ha Hr.
  - by rewrite app_nil_r.
  - apply Forall_cons in Hr as [Ht Hr]. simpl.
    replace (xs ++ t :: rest) with ((xs ++ [t]) ++ rest)
      by (by rewrite <-(assoc_L (++))).
    apply IH; auto.
Qed.
End invariant.

(** *** Keys, rows and width *)

Lemma rows_joined_single t : unique_keys t → rows_joined [t] t.
Proof.
  intros Ht. split_and!; [done| | |].
  - intros k. setoid_rewrite list_elem_of_singleton. naive_solver.
  - intros k. simpl. by rewrite app_nil_r.
  - simpl. lia.
Qed.

Lemma rows_joined_merge xs ys a b :
  rows_joined xs a → rows_joined ys b → rows_joined (xs ++ ys) (merge a b).
Proof.
  intros (Hua & Hka & Hra & Hca) (Hub & Hkb & Hrb & Hcb). split_and!.
  - by apply merge_unique_keys.
  - intros k. rewrite merge_index, elem_of_union_keys, Hka, Hkb by done.
    setoid_rewrite elem_of_app. naive_solver.
  - intros k. by rewrite merge_row, Hra, Hrb, fmap_app, concat_app.
  - simpl. by rewrite merge_columns_length, Hca, Hcb, sum_list_with_app.
Qed.

(** *** The whole frame, when the labels do not clash *)

Lemma folded_single t : folded [t] t.
Proof.
  split; [done|]. intros Hu%Forall_cons _. destruct Hu as [Hu _].
  split_and!; [done..|]. simpl. by rewrite app_nil_r.
Qed.

Lemma merge_foldl_assoc rest : ∀ a b,
  unique_keys a → unique_keys b → Forall unique_keys rest →
  NoDup (columns a ++ columns b ++ concat (columns <$> rest)) →
  merge a (foldl merge b rest) = foldl merge (merge a b) rest
  ∧ unique_keys (foldl merge b rest)
  ∧ columns (foldl merge b rest) = columns b ++ concat (columns <$> rest).
Proof.
  induction rest as [|t rest IH]; intros a b Ha Hb Hr Hnd.
  - simpl. by rewrite app_nil_r.
  - apply Forall_cons in Hr as [Ht Hr]. simpl in *.
    apply NoDup_app in Hnd as (Hna & Hab & Hnd).
    apply NoDup_app in Hnd as (Hnb & Hbt & Hnd).
    apply NoDup_app in Hnd as (Hnt & Htr & Hnr).
    assert (columns b ## columns t) as Hdbt.
    { intros c ??. eapply Hbt; [done|]. apply elem_of_app. by left. }
    assert (columns a ## columns b) as Hdab.
    { intros c ??. eapply Hab; [done|]. apply elem_of_app. by left. }
    assert (columns a ## columns t) as Hdat.
    { intros c ??. eapply Hab; [done|]. rewrite !elem_of_app. auto. }
    assert (columns (merge b t) = columns b ++ columns t) as Hcbt.
    { simpl. by apply merge_columns_disjoint. }
    assert (columns (merge a b) = columns a ++ columns b) as Hcab.
    { simpl. by apply merge_columns_disjoint. }
    destruct (IH a (merge b t)) as (E1 & U1 & C1);
      [done|by apply merge_unique_keys|done| |].
    { rewrite Hcbt, <-(assoc_L (++)).
      apply NoDup_app. split_and!; [done| |].
      - intros c Hc. by apply Hab.
      - apply NoDup_app. split_and!; [done| |].
        + intros c Hc. by apply Hbt.
        + by apply NoDup_app. }
    split_and!.
    + rewrite E1. by rewrite merge_assoc.
    + done.
    + by rewrite C1, Hcbt, <-(assoc_L (++)).
Qed.

Lemma folded_merge xs ys a b :
  folded xs a → folded ys b → folded (xs ++ ys) (merge a b).
Proof.
  intros [Hxs Ha] [Hys Hb]. split; [by destruct xs|].
  intros [Hux Huy]%Forall_app Hd. unfold distinct_labels in Hd.
  rewrite fmap_app, concat_app in Hd.
  pose proof Hd as (Hdx & Hxy & Hdy)%NoDup_app.
  destruct (Ha Hux Hdx) as (-> & Uxa & Cxa).
  destruct (Hb Huy Hdy) as (-> & Uyb & Cyb).
  assert (columns (merge_all xs) ## columns (merge_all ys)) as Hdis.
  { intros c. rewrite Cxa, Cyb. apply Hxy. }
  split_and!.
  - destruct xs as [|x xs]; [done|]. destruct ys as [|y ys]; [done|].
    cbn [merge_all app]. rewrite foldl_app. cbn [foldl].
    apply Forall_cons in Huy as [Huy0 Huy].
    destruct (merge_foldl_assoc ys (foldl merge x xs) y) as (E & _ & _);
      [done..| |done].
    cbn [merge_all] in Cxa. rewrite Cxa. simpl in Hd. done.
  - by apply merge_unique_keys.
  - simpl. rewrite merge_columns_disjoint by done.
    by rewrite Cxa, Cyb, fmap_app, concat_app.
Qed.

(** * The properties of the specification *)

(** ** C10 *)

(** C10: called on an empty list, both reducers raise [ValueError] at once:
    the store is left as it was, no frame is allocated and no progress bar is
    created. *)
Theorem C10_empty_input_raises σ dfs :
  list_at σ dfs = [] →
  join_dataframes_sequentially dfs σ = (σ, Raise ValueError)
  ∧ join_dataframes_recursively dfs σ = Some (mkRun σ None (Raise ValueError)).
Proof.
  intros Hl. unfold join_dataframes_sequentially, join_dataframes_recursively.
  rewrite Hl. simpl. done.
Qed.

Lemma C10_witness :
  list_at (loaded []) 0 = []
  ∧ join_dataframes_sequentially 0 (loaded []) = (loaded [], Raise ValueError)
  ∧ join_dataframes_recursively 0 (loaded [])
    = Some (mkRun (loaded []) None (Raise ValueError)).
Proof. split; [reflexivity|]. apply (C10_empty_input_raises (loaded []) 0). reflexivity. Defined.

(** ** C6 *)

(** Two tables with the same sample name: the joined frame has neither
    input's column label. *)
Lemma C6_shared_label_counterexample :
  ¬ (∀ c, c ∈ columns (merge clash_1 clash_2)
          ↔ c ∈ columns clash_1 ∨ c ∈ columns clash_2).
Proof.
  intros H. assert ("s" ∈ columns (merge clash_1 clash_2)) as Hs.
  { apply H. left. by_evaluation. }
  revert Hs. by_evaluation.
Qed.

(** C6 (amended): for two tables with unique keys and no column label in
    common, the join has the union of the keys, the union of the columns, and
    in each column the value of the table the column comes from where that
    table has the key, a missing value where it has not. *)
Theorem C6_merge_is_outer_join (a b : DataFrame) :
  unique_keys a → unique_keys b → wf a → wf b → columns a ## columns b →
  (∀ k, k ∈ index (merge a b) ↔ k ∈ index a ∨ k ∈ index b)
  ∧ (∀ c, c ∈ columns (merge a b) ↔ c ∈ columns a ∨ c ∈ columns b)
  ∧ (∀ k c, k ∈ index (merge a b) → c ∈ columns a →
       cell (merge a b) k c
       = if decide (k ∈ index a) then cell a k c else Some None)
  ∧ (∀ k c, k ∈ index (merge a b) → c ∈ columns b →
       cell (merge a b) k c
       = if decide (k ∈ index b) then cell b k c else Some None).
Proof.
  intros Ha Hb Hwa Hwb Hd.
  assert (∀ k, k ∈ index (merge a b) ↔ k ∈ index a ∨ k ∈ index b) as Hk.
  { intros k. by rewrite merge_index, elem_of_union_keys. }
  split_and!; [done| | |].
  - intros c. simpl. by rewrite merge_columns_disjoint, elem_of_app.
  - intros k c Hkm%Hk Hc. rewrite cell_merge_l by done. case_decide.
    + by rewrite cell_get.
    + by rewrite get_None_index.
  - intros k c Hkm%Hk Hc. rewrite cell_merge_r by done. case_decide.
    + by rewrite cell_get.
    + by rewrite get_None_index.
Qed.

Lemma C6_witness :
  (∀ k, k ∈ index (merge file_A file_B) ↔ k ∈ index file_A ∨ k ∈ index file_B)
  ∧ (∀ c, c ∈ columns (merge file_A file_B)
          ↔ c ∈ columns file_A ∨ c ∈ columns file_B)
  ∧ (∀ k c, k ∈ index (merge file_A file_B) → c ∈ columns file_A →
       cell (merge file_A file_B) k c
       = if decide (k ∈ index file_A) then cell file_A k c else Some None)
  ∧ (∀ k c, k ∈ index (merge file_A file_B) → c ∈ columns file_B →
       cell (merge file_A file_B) k c
       = if decide (k ∈ index file_B) then cell file_B k c else Some None).
Proof.
  apply (C6_merge_is_outer_join file_A file_B);
    unfold unique_keys, wf; by_evaluation.
Defined.

(** The scenario of the specification: genes [g1], [g2] in A and [g2], [g3] in B give
    three rows, [g1] has no value for B and [g3] none for A. *)
Example merge_file_A_file_B :
  merge file_A file_B
  = mkDataFrame ["A"; "B"]
      [("g1", [Some 10%Z; None]);
       ("g2", [Some 20%Z; Some 30%Z]);
       ("g3", [None; Some 40%Z])].
Proof. reflexivity. Qed.

(** ** C8 *)

Lemma joint_content_two a b :
  unique_keys a → unique_keys b → wf a → wf b → columns a ## columns b →
  joint_content [a; b] (merge a b).
Proof.
  intros. apply (joint_content_merge [a] [b]); auto using joint_content_single.
Qed.

Lemma joint_content_three a b c :
  unique_keys a → unique_keys b → unique_keys c → wf a → wf b → wf c →
  columns a ## columns b → columns a ## columns c → columns b ## columns c →
  Forall (joint_content [a; b; c]) (bracketings a b c).
Proof.
  intros Ha Hb Hc Hwa Hwb Hwc Hab Hac Hbc.
  unfold bracketings. apply Forall_cons_2; [|apply Forall_cons_2; [|constructor]].
  - apply (joint_content_merge [a; b] [c]);
      auto using joint_content_single, joint_content_two, merge_unique_keys, merge_wf.
    simpl. rewrite merge_columns_disjoint by done.
    intros x [?|?]%elem_of_app ?; [by eapply Hac|by eapply Hbc].
  - apply (joint_content_merge [a] [b; c]);
      auto using joint_content_single, joint_content_two, merge_unique_keys, merge_wf.
    simpl. rewrite merge_columns_disjoint by done.
    intros x ? [?|?]%elem_of_app; [by eapply Hab|by eapply Hac].
Qed.

Lemma joint_content_equiv xs ys m :
  (∀ t, t ∈ xs ↔ t ∈ ys) → joint_content xs m → joint_content ys m.
Proof.
  intros Heq (Hk & Hc & Hv). split_and!.
  - intros k. rewrite Hk. by setoid_rewrite Heq.
  - intros c. rewrite Hc. by setoid_rewrite Heq.
  - intros t k c Ht. apply Hv. by apply Heq.
Qed.

(** C8: on tables with unique keys and pairwise disjoint column labels the
    join is commutative up to the order of columns, and joining three tables
    in any order and with either bracketing gives the same content. *)
Theorem C8_merge_commutative_associative (a b c : DataFrame) :
  unique_keys a → unique_keys b → unique_keys c → wf a → wf b → wf c →
  columns a ## columns b → columns a ## columns c → columns b ## columns c →
  same_content (merge a b) (merge b a)
  ∧ Forall (same_content (merge (merge a b) c)) (arrangements a b c).
Proof.
  intros Ha Hb Hc Hwa Hwb Hwc Hab Hac Hbc.
  assert (columns b ## columns a) as Hba by (intros x ??; by eapply Hab).
  assert (columns c ## columns a) as Hca by (intros x ??; by eapply Hac).
  assert (columns c ## columns b) as Hcb by (intros x ??; by eapply Hbc).
  split.
  - apply (joint_content_same [a; b]); [by apply joint_content_two|].
    apply (joint_content_equiv [b; a]); [|by apply joint_content_two].
    intros t. rewrite !elem_of_cons. tauto.
  - assert (joint_content [a; b; c] (merge (merge a b) c)) as Href.
    { by eapply Forall_cons_1, joint_content_three. }
    unfold arrangements. repeat (apply Forall_app; split).
    all: eapply Forall_impl;
      [apply joint_content_three; done
      |intros m Hm; apply (joint_content_same [a; b; c]); [done|];
       revert Hm; apply joint_content_equiv;
       intros t; rewrite !elem_of_cons, !elem_of_nil; tauto].
Qed.

Lemma C8_witness :
  same_content (merge file_A file_B) (merge file_B file_A)
  ∧ Forall (same_content (merge (merge file_A file_B) file_C))
      (arrangements file_A file_B file_C).
Proof.
  apply (C8_merge_commutative_associative file_A file_B file_C);
    unfold unique_keys, wf; by_evaluation.
Defined.

Lemma rows_joined_relabel inputs m :
  rows_joined inputs m → rows_joined inputs (relabel_sorted m).
Proof.
  intros (Hu & Hk & Hr & Hc). split_and!; try done.
  - intros k. rewrite <-Hr. unfold row, blank, lookup_row, rows_at. simpl.
    by rewrite sorted_length.
  - simpl. by rewrite sorted_length.
Qed.

Lemma tables_of_length σ l : length (tables_of σ l) = length l.
Proof. unfold tables_of. by rewrite length_fmap. Qed.

Lemma rounds_post_tree_join dfs σ dfs' σ' n r :
  rounds_post (length (list_at σ dfs)) dfs σ 0 dfs' σ' n r →
  reduce (length (list_at σ dfs)) (tables_of σ (list_at σ dfs)) = [frame σ' r]
  ∧ frame σ' r = tree_join (tables_of σ (list_at σ dfs)).
Proof.
  intros Hpost. pose proof (post_table _ _ _ _ _ _ _ _ Hpost) as Ht.
  split; [done|]. unfold tree_join. by rewrite tables_of_length, <-Ht.
Qed.

Lemma iterations_ge fuel : ∀ num, num ≤ fuel → num - 1 ≤ iterations fuel num.
Proof.
  induction fuel as [|fuel IH]; intros num Hnum; [lia|].
  cbn [iterations]. case_decide as H1; [|lia].
  pose proof (ceil_half_lt _ H1). specialize (IH (ceil_half num) ltac:(lia)).
  assert (num ≤ 2 * ceil_half num); [|lia].
  unfold ceil_half. pose proof (Nat.div_mod_eq (num + 1) 2).
  pose proof (Nat.mod_upper_bound (num + 1) 2 ltac:(lia)). lia.
Qed.

(** ** C9 *)

(** C9: for every nonempty list of tables with unique keys, the pairing
    rounds end with a working list of exactly one table; at every key this
    table holds the cells of all inputs side by side, once each and in input
    order (missing where an input lacks the key), and it has as many columns
    as the inputs together. It is the table the reducer then relabels, checks
    and returns. *)
Theorem C9_no_table_dropped σ dfs :
  call_ok σ dfs → list_at σ dfs ≠ [] →
  Forall unique_keys (tables_of σ (list_at σ dfs)) →
  ∃ dfs' σ' n r run,
    rounds_loop (length (list_at σ dfs)) dfs σ 0 = Some (dfs', σ', n)
    ∧ list_at σ' dfs' = [r]
    ∧ rows_joined (tables_of σ (list_at σ dfs)) (frame σ' r)
    ∧ join_dataframes_recursively dfs σ = Some run
    ∧ rows_joined (tables_of σ (list_at σ dfs)) (frame (store run) r)
    ∧ (outcome run = Return r
       ∨ outcome run = Raise (ShapeMismatch (shape (frame (store run) r))
                                (expected_shape σ dfs))).
Proof.
  intros Hok Hne Hu.
  destruct (join_dataframes_recursively_spec dfs σ Hok Hne)
    as (dfs' & σ' & r & Hrounds & Hpost & Hrun & Hframe).
  destruct (rounds_post_tree_join _ _ _ _ _ _ Hpost) as [Hred _].
  assert (rows_joined (tables_of σ (list_at σ dfs)) (frame σ' r)) as Hj.
  { eapply (reduce_singleton_inv _ rows_joined_merge); [|exact Hred].
    eapply Forall_impl; [exact Hu|]. apply rows_joined_single. }
  eexists dfs', σ', _, r, _. split_and!; [done| |done|exact Hrun| |].
  - apply (post_list _ _ _ _ _ _ _ _ Hpost).
  - cbn [store]. rewrite Hframe. by apply rows_joined_relabel.
  - cbn [outcome store]. unfold check_shape. case_decide; auto.
Qed.

Lemma C9_witness :
  ∃ dfs' σ' n r run,
    rounds_loop (length (list_at three_files 0)) 0 three_files 0
    = Some (dfs', σ', n)
    ∧ list_at σ' dfs' = [r]
    ∧ rows_joined (tables_of three_files (list_at three_files 0)) (frame σ' r)
    ∧ join_dataframes_recursively 0 three_files = Some run
    ∧ rows_joined (tables_of three_files (list_at three_files 0))
        (frame (store run) r)
    ∧ (outcome run = Return r
       ∨ outcome run = Raise (ShapeMismatch (shape (frame (store run) r))
                                (expected_shape three_files 0))).
Proof. apply (C9_no_table_dropped three_files 0); by_evaluation. Defined.

(** ** C7 *)

(** Three tables: the precomputed count is 3 (two steps in the first round,
    one in the second) while two joins are performed. *)
Lemma C7_three_tables_counterexample :
  ∃ run total n,
    join_dataframes_recursively 0 three_files = Some run
    ∧ pbar run = Some (total, n)
    ∧ total ≠ merges_performed three_files (store run).
Proof. eexists _, 3, 3. split_and!; [reflexivity|reflexivity|by_evaluation]. Qed.

(** C7 (amended): for every nonempty input the count computed beforehand,
    the sum over the rounds of [ceil(current_count / 2)], equals the number of
    calls of [pbar.update()], one per step of the inner loop, a step being
    the join of a pair or the carrying over of an odd last table. The number
    of joins is [N - 1], which is at most that count. The check before
    ["Math was incorrect!"] only tests that one table is left, and this error
    is never raised. *)
Theorem C7_progress_count σ dfs :
  call_ok σ dfs → list_at σ dfs ≠ [] →
  let num := length (list_at σ dfs) in
  ∃ run,
    join_dataframes_recursively dfs σ = Some run
    ∧ count_iterations num num 0 = Some (iterations num num)
    ∧ pbar run = Some (iterations num num, iterations num num)
    ∧ merges_performed σ (store run) = num - 1
    ∧ num - 1 ≤ iterations num num
    ∧ outcome run ≠ Raise MathIncorrect.
Proof.
  intros Hok Hne num.
  destruct (join_dataframes_recursively_spec dfs σ Hok Hne)
    as (dfs' & σ' & r & Hrounds & Hpost & Hrun & Hframe).
  eexists. split_and!; [exact Hrun| |done| | |].
  - by rewrite count_iterations_spec.
  - unfold merges_performed, set_columns. cbn [store frames].
    rewrite length_insert.
    destruct (post_frames _ _ _ _ _ _ _ _ Hpost) as (news & -> & Hlen).
    rewrite length_app. fold num in Hlen. lia.
  - by apply iterations_ge.
  - cbn [outcome]. unfold check_shape. by case_decide.
Qed.

Lemma C7_witness :
  let num := length (list_at three_files 0) in
  ∃ run,
    join_dataframes_recursively 0 three_files = Some run
    ∧ count_iterations num num 0 = Some (iterations num num)
    ∧ pbar run = Some (iterations num num, iterations num num)
    ∧ merges_performed three_files (store run) = num - 1
    ∧ num - 1 ≤ iterations num num
    ∧ outcome run ≠ Raise MathIncorrect.
Proof. apply (C7_progress_count three_files 0); by_evaluation. Defined.

(** ** C5 *)

Lemma rows_joined_merge_all inputs :
  inputs ≠ [] → Forall unique_keys inputs → rows_joined inputs (merge_all inputs).
Proof.
  destruct inputs as [|t rest]; [done|]. intros _ [Ht Hr]%Forall_cons.
  apply (foldl_merge_inv _ rows_joined_merge [t]).
  - by apply rows_joined_single.
  - eapply Forall_impl; [exact Hr|]. apply rows_joined_single.
Qed.

Lemma reduce_singleton fuel : ∀ (tables : list DataFrame),
  tables ≠ [] → length tables ≤ fuel → ∃ m, reduce fuel tables = [m].
Proof.
  induction fuel as [|fuel IH]; intros tables Hne Hlen.
  - destruct tables; simpl in *; [done|lia].
  - cbn [reduce]. case_decide as H1.
    + apply IH.
      * intros E. pose proof (pair_up_length tables) as Hp. rewrite E in Hp.
        pose proof (ceil_half_pos (length tables) ltac:(lia)). simpl in Hp. lia.
      * rewrite pair_up_length. pose proof (ceil_half_lt _ H1). lia.
    + destruct tables as [|m [|m' tables]]; simpl in *; [done|by exists m|lia].
Qed.

Lemma rows_joined_tree_join inputs :
  inputs ≠ [] → Forall unique_keys inputs → rows_joined inputs (tree_join inputs).
Proof.
  intros Hne Hu. destruct (reduce_singleton (length inputs) inputs) as [m Hm];
    [done..|].
  unfold tree_join. rewrite Hm. simpl.
  eapply (reduce_singleton_inv _ rows_joined_merge); [|exact Hm].
  eapply Forall_impl; [exact Hu|]. apply rows_joined_single.
Qed.

(** A joined frame has more rows than an input that lacks one of the keys. *)
Lemma rows_joined_more_rows inputs m first t k :
  rows_joined inputs m → first ∈ inputs → unique_keys first →
  t ∈ inputs → k ∈ index t → k ∉ index first →
  length (rows first) < length (rows m).
Proof.
  intros (Hu & Hk & _ & _) Hf Huf Ht Hkt Hkf.
  assert (k :: index first ⊆+ index m) as Hsub.
  { apply NoDup_submseteq.
    - by constructor.
    - intros y [->|Hy]%elem_of_cons; apply Hk; eauto. }
  apply submseteq_length in Hsub. unfold index in Hsub.
  rewrite length_cons, !length_fmap in Hsub. lia.
Qed.

(** [file_A] has the gene [g2], which [file_D] lacks, and both reducers
    return a table. *)
Lemma C5_missing_key_counterexample :
  (∃ t u k, t ∈ [file_A; file_D] ∧ u ∈ [file_A; file_D]
            ∧ k ∈ index t ∧ k ∉ index u)
  ∧ (∃ σs r, join_dataframes_sequentially 0 two_files_fewer_keys = (σs, Return r))
  ∧ (∃ run r, join_dataframes_recursively 0 two_files_fewer_keys = Some run
              ∧ outcome run = Return r).
Proof.
  split_and!.
  - exists file_A, file_D, "g2". split_and!; by_evaluation.
  - by eexists _, _.
  - by eexists _, _.
Qed.

(** C5 (amended): for every nonempty input each reducer raises
    [ShapeMismatch], carrying the actual and the expected shape, exactly when
    the shape of its merged table differs from (rows of the first input,
    number of inputs), and returns the table otherwise. In particular, when
    the inputs have unique keys and some input has a key that the first input
    lacks, both reducers raise it. *)
Theorem C5_shape_check σ dfs x l :
  call_ok σ dfs → list_at σ dfs = x :: l →
  let inputs := tables_of σ (x :: l) in
  let expected := (length (rows (frame σ x)), length (x :: l)) in
  ∃ σs rs run rr,
    join_dataframes_sequentially dfs σ
    = (σs, verdict expected (merge_all inputs) rs)
    ∧ frame σs rs = merge_all inputs
    ∧ join_dataframes_recursively dfs σ = Some run
    ∧ outcome run = verdict expected (recursive_value inputs) rr
    ∧ frame (store run) rr = recursive_value inputs
    ∧ (Forall unique_keys inputs →
       (∃ t k, t ∈ inputs ∧ k ∈ index t ∧ k ∉ index (frame σ x)) →
       shape (merge_all inputs) ≠ expected
       ∧ shape (recursive_value inputs) ≠ expected).
Proof.
  intros Hok Hl inputs expected. pose proof Hok as [Hdfs Hv]. rewrite Hl in Hv.
  assert (expected_shape σ dfs = expected) as He.
  { unfold expected_shape. by rewrite Hl. }
  destruct (join_dataframes_sequentially_spec dfs σ x l Hl Hv)
    as (news & rs & Hseq & _ & _ & Hfs & _ & _).
  destruct (join_dataframes_recursively_spec dfs σ Hok) as
    (dfs' & σ' & rr & _ & Hpost & Hrec & Hfr); [by rewrite Hl|].
  destruct (rounds_post_tree_join _ _ _ _ _ _ Hpost) as [_ Htree].
  rewrite Hl in Htree. fold inputs in Htree.
  assert (frame (set_columns rr (sorted (columns (frame σ' rr))) σ') rr
          = recursive_value inputs) as Hfr'.
  { rewrite Hfr. unfold recursive_value. by rewrite Htree. }
  eexists _, rs, _, rr. split_and!.
  - rewrite Hseq, He. unfold check_shape, verdict. by rewrite Hfs.
  - exact Hfs.
  - exact Hrec.
  - cbn [outcome]. rewrite He. unfold check_shape, verdict. by rewrite Hfr'.
  - exact Hfr'.
  - intros Hu (t & k & Ht & Hkt & Hkx).
    assert (frame σ x ∈ inputs) as Hx by (unfold inputs; simpl; left).
    assert (unique_keys (frame σ x)) as Hux
      by (by eapply (proj1 (Forall_forall _ _) Hu)).
    split.
    + pose proof (rows_joined_more_rows inputs (merge_all inputs) _ t k
        (rows_joined_merge_all inputs ltac:(done) Hu) Hx Hux Ht Hkt Hkx).
      intros E.
      assert (length (rows (merge_all inputs)) = length (rows (frame σ x)))
        as E' by (by injection E).
      lia.
    + pose proof (rows_joined_more_rows inputs (recursive_value inputs) _ t k
        (rows_joined_relabel _ _ (rows_joined_tree_join inputs ltac:(done) Hu))
        Hx Hux Ht Hkt Hkx).
      intros E.
      assert (length (rows (recursive_value inputs)) = length (rows (frame σ x)))
        as E' by (by injection E).
      lia.
Qed.

Lemma C5_witness :
  let inputs := tables_of two_files [0; 1] in
  let expected := (length (rows (frame two_files 0)), length [0; 1]) in
  (∃ σs rs run rr,
     join_dataframes_sequentially 0 two_files
     = (σs, verdict expected (merge_all inputs) rs)
     ∧ frame σs rs = merge_all inputs
     ∧ join_dataframes_recursively 0 two_files = Some run
     ∧ outcome run = verdict expected (recursive_value inputs) rr
     ∧ frame (store run) rr = recursive_value inputs)
  ∧ shape (merge_all inputs) ≠ expected
  ∧ shape (recursive_value inputs) ≠ expected.
Proof.
  intros inputs expected.
  destruct (C5_shape_check two_files 0 0 [1])
    as (σs & rs & run & rr & H1 & H2 & H3 & H4 & H5 & H6); [by_evaluation..|].
  split; [by exists σs, rs, run, rr|].
  apply H6; [by_evaluation|].
  exists file_B, "g3". split_and!; by_evaluation.
Defined.

(** In that run both reducers do raise, with the shapes (3, 2) and (2, 2). *)
Example two_files_shape_mismatch :
  (join_dataframes_sequentially 0 two_files).2
  = Raise (ShapeMismatch (3, 2) (2, 2))
  ∧ outcome <$> join_dataframes_recursively 0 two_files
    = Some (Raise (ShapeMismatch (3, 2) (2, 2))).
Proof. split; reflexivity. Qed.

(** ** C4 *)

(** After the recursive reducer the caller's list is empty, and called on a
    single table either reducer returns that very table. *)
Lemma C4_caller_list_counterexample :
  (∃ run, join_dataframes_recursively 0 two_samples = Some run
          ∧ list_at two_samples 0 = [0; 1]
          ∧ list_at (store run) 0 = [])
  ∧ (∃ σs, join_dataframes_sequentially 0 one_sample = (σs, Return 0)
           ∧ list_at one_sample 0 = [0])
  ∧ (∃ run, join_dataframes_recursively 0 one_sample = Some run
            ∧ outcome run = Return 0).
Proof. split_and!; by eexists. Qed.

Lemma relabel_sorted_id df :
  Sorted String.le (columns df) → relabel_sorted df = df.
Proof. intros Hs. unfold relabel_sorted. rewrite sorted_id by done. by destruct df. Qed.

(** C4 (amended): a join never changes its operands. The sequential reducer
    leaves the caller's list and every frame of the store as they were; the
    recursive reducer leaves every frame as it was when given two tables or
    more, and then empties the caller's list. A result returned for two
    tables or more is a newly allocated frame. Given a single table, either
    reducer returns that table itself, the recursive one after assigning it
    its own column labels in sorted order, which changes nothing when they
    are in order already. *)
Theorem C4_effects_on_the_store σ dfs x l :
  call_ok σ dfs → list_at σ dfs = x :: l →
  (∃ σs os,
     join_dataframes_sequentially dfs σ = (σs, os)
     ∧ lists σs = lists σ
     ∧ (∃ news, frames σs = frames σ ++ news)
     ∧ (l = [] → σs = σ ∧ ∀ r, os = Return r → r = x)
     ∧ (l ≠ [] → ∀ r, os = Return r → length (frames σ) ≤ r))
  ∧ (∃ run,
     join_dataframes_recursively dfs σ = Some run
     ∧ (l = [] →
        lists (store run) = lists σ
        ∧ frames (store run) = <[x := relabel_sorted (frame σ x)]> (frames σ)
        ∧ (Sorted String.le (columns (frame σ x)) → store run = σ)
        ∧ ∀ r, outcome run = Return r → r = x)
     ∧ (l ≠ [] →
        list_at (store run) dfs = []
        ∧ (∃ news, frames (store run) = frames σ ++ news)
        ∧ ∀ r, outcome run = Return r → length (frames σ) ≤ r)).
Proof.
  intros Hok Hl. pose proof Hok as [Hdfs Hv]. rewrite Hl in Hv. split.
  - destruct (join_dataframes_sequentially_spec dfs σ x l Hl Hv)
      as (news & rs & Hseq & Hlen & _ & _ & Hnil & Hfresh).
    eexists _, _. split; [exact Hseq|]. cbn [frames lists]. split_and!.
    + done.
    + by exists news.
    + intros ->. destruct news; [|done]. rewrite app_nil_r. split; [by destruct σ|].
      unfold check_shape. intros r. case_decide; [|done]. intros [= <-]. by apply Hnil.
    + intros Hne r. unfold check_shape. case_decide; [|done]. intros [= <-]. by apply Hfresh.
  - destruct (join_dataframes_recursively_spec dfs σ Hok) as
      (dfs' & σ' & rr & _ & Hpost & Hrec & Hfr); [by rewrite Hl|].
    eexists. split; [exact Hrec|]. cbn [store outcome].
    assert (∀ r, check_shape rr (expected_shape σ dfs)
                   (set_columns rr (sorted (columns (frame σ' rr))) σ') = Return r
                 → r = rr) as Hret.
    { intros r. unfold check_shape. case_decide; [|done]. by intros [= <-]. }
    split.
    + intros ->. destruct (post_single _ _ _ _ _ _ _ _ Hpost) as [-> ->];
        [by rewrite Hl|].
      pose proof (post_list _ _ _ _ _ _ _ _ Hpost) as Hlist.
      rewrite Hl in Hlist. injection Hlist as <-.
      split_and!; [done|done| |].
      * intros Hs. unfold set_columns. rewrite sorted_id by done.
        rewrite list_insert_id; [by destruct σ|].
        unfold frame. rewrite list_lookup_lookup_total_lt; [by destruct (frames σ !!! x)|].
        by apply Forall_cons in Hv as [? _].
      * intros r Hr. by apply Hret.
    + intros Hne. destruct (post_fresh _ _ _ _ _ _ _ _ Hpost) as [Hge Hempty].
      { rewrite Hl. destruct l; [done|simpl; lia]. }
      destruct (post_frames _ _ _ _ _ _ _ _ Hpost) as (news & Hframes & _).
      split_and!.
      * exact Hempty.
      * unfold set_columns. cbn [frames]. rewrite Hframes.
        rewrite insert_app_r_alt by done. by eexists.
      * intros r Hr. by rewrite (Hret r Hr).
Qed.

Lemma C4_witness :
  (∃ σs os,
     join_dataframes_sequentially 0 two_samples = (σs, os)
     ∧ lists σs = lists two_samples
     ∧ (∃ news, frames σs = frames two_samples ++ news)
     ∧ ∀ r, os = Return r → length (frames two_samples) ≤ r)
  ∧ (∃ run,
     join_dataframes_recursively 0 two_samples = Some run
     ∧ list_at (store run) 0 = []
     ∧ (∃ news, frames (store run) = frames two_samples ++ news)
     ∧ ∀ r, outcome run = Return r → length (frames two_samples) ≤ r).
Proof.
  destruct (C4_effects_on_the_store two_samples 0 0 [1]) as [Hseq Hrec];
    [by_evaluation..|].
  destruct Hseq as (σs & os & H1 & H2 & H3 & _ & H4).
  destruct Hrec as (run & H5 & _ & H6).
  split.
  - exists σs, os. split_and!; [done..|]. by apply H4.
  - exists run. split; [done|]. by apply H6.
Defined.

(** ** C3 *)

Lemma sum_list_with_ones (inputs : list DataFrame) :
  Forall (λ t, length (columns t) = 1) inputs →
  sum_list_with (λ t, length (columns t)) inputs = length inputs.
Proof.
  induction 1 as [|t inputs Ht _ IH]; [done|]. simpl. rewrite Ht, IH. done.
Qed.

(** With identical key sets the joined frame has the shape the reducers
    expect. *)
Lemma rows_joined_shape inputs m first :
  rows_joined inputs m → first ∈ inputs → unique_keys first →
  Forall (λ t, length (columns t) = 1) inputs →
  Forall (λ t, ∀ k, k ∈ index t ↔ k ∈ index first) inputs →
  shape m = (length (rows first), length inputs).
Proof.
  intros (Hu & Hk & _ & Hc) Hf Huf Hone Hsame. unfold shape. f_equal.
  - assert (index m ≡ₚ index first) as Hp.
    { apply NoDup_Permutation; [done..|]. intros k. rewrite Hk. split.
      - intros (t & Ht & Hkt). by apply (proj1 (Forall_forall _ _) Hsame t Ht).
      - intros Hkf. eauto. }
    apply Permutation_length in Hp. unfold index in Hp.
    by rewrite !length_fmap in Hp.
  - by rewrite Hc, sum_list_with_ones.
Qed.

(** The two reducers build the same frame when the inputs have unique keys
    and their column labels, taken in input order, are distinct and in
    increasing order. *)
Lemma reducers_agree inputs :
  inputs ≠ [] → Forall unique_keys inputs →
  Sorted String.le (concat (columns <$> inputs)) →
  NoDup (concat (columns <$> inputs)) →
  recursive_value inputs = merge_all inputs.
Proof.
  intros Hne Hu Hs Hd.
  destruct (reduce_singleton (length inputs) inputs) as [m Hm]; [done..|].
  assert (folded inputs m) as [_ Hf].
  { eapply (reduce_singleton_inv _ folded_merge); [|exact Hm].
    apply Forall_forall. intros t _. apply folded_single. }
  destruct (Hf Hu Hd) as (-> & _ & Hc).
  unfold recursive_value, tree_join. rewrite Hm. simpl.
  apply relabel_sorted_id. by rewrite Hc.
Qed.

(** Five files with identical key sets and identical counts: both reducers
    return, their frames have the same content, and a mismatch is
    reported. *)
Lemma C3_five_files_counterexample :
  join_dataframes_sequentially 0 (loaded five_files) = five_sequential
  ∧ five_sequential.2 = Return 8
  ∧ join_dataframes_recursively 0 five_sequential.1 = five_recursive
  ∧ outcome <$> five_recursive = Some (Return 12)
  ∧ store <$> five_recursive = Some five_final
  ∧ same_content (frame five_final 8) (frame five_final 12)
  ∧ concordance_test 0 (loaded five_files)
    = Some (five_final, Raise AssertionError).
Proof.
  split_and!; try (vm_compute; reflexivity).
  set (cells := [("g", [Some 7%Z; Some 7%Z; Some 7%Z; Some 7%Z; Some 7%Z])]).
  assert (frame five_final 8 = mkDataFrame ["s5"; "s4"; "s3"; "s2"; "s1"] cells)
    as -> by (vm_compute; reflexivity).
  assert (frame five_final 12 = mkDataFrame ["s1"; "s2"; "s3"; "s4"; "s5"] cells)
    as -> by (vm_compute; reflexivity).
  apply same_content_intro.
  - done.
  - intros c. cbn [columns]. rewrite !elem_of_cons, !elem_of_nil. tauto.
  - intros k c Hk Hc. cbn [columns] in Hc. unfold index, cells in Hk.
    cbn [rows fmap list_fmap fst] in Hk.
    apply list_elem_of_singleton in Hk as ->.
    repeat (apply elem_of_cons in Hc as [->|Hc]);
      [vm_compute; reflexivity..|].
    by apply elem_of_nil in Hc.
Qed.

(** Frames read through a store that only grew. *)
Lemma tables_of_app σ news l :
  valid σ l → tables_of (mkStore (frames σ ++ news) (lists σ)) l = tables_of σ l.
Proof.
  intros Hv. apply Forall_fmap_ext. eapply Forall_impl; [exact Hv|].
  intros r Hr. unfold frame. simpl. by rewrite lookup_total_app_l.
Qed.

(** C3 (amended): for every nonempty input, [concordance_test] runs the
    sequential and then the recursive reducer, passes on the error of the
    first that fails its shape check, and otherwise compares the two frames
    with pandas' default frame equality: the same row labels in the same
    order, the same column labels in the same order, and equal cells, missing
    matching missing. It reports a mismatch exactly when the frames differ in
    that sense. In particular, on tables (five or any other number) with
    unique keys, identical key sets and one column each, whose sample names
    are distinct and in increasing order, it completes with no mismatch
    reported. *)
Theorem C3_concordance_test σ dfs x l :
  call_ok σ dfs → list_at σ dfs = x :: l →
  let inputs := tables_of σ (x :: l) in
  let expected := (length (rows (frame σ x)), length (x :: l)) in
  (∃ σ', concordance_test dfs σ
         = Some (σ', concordance expected (merge_all inputs)
                       (recursive_value inputs)))
  ∧ (Forall (λ t, unique_keys t) inputs →
     Forall (λ t, length (columns t) = 1) inputs →
     Forall (λ t, ∀ k, k ∈ index t ↔ k ∈ index (frame σ x)) inputs →
     Sorted String.le (concat (columns <$> inputs)) →
     NoDup (concat (columns <$> inputs)) →
     concordance expected (merge_all inputs) (recursive_value inputs)
     = Return ()).
Proof.
  intros Hok Hl inputs expected. pose proof Hok as [Hdfs Hv]. rewrite Hl in Hv.
  split.
  - assert (expected_shape σ dfs = expected) as He.
    { unfold expected_shape. by rewrite Hl. }
    destruct (join_dataframes_sequentially_spec dfs σ x l Hl Hv)
      as (news & rs & Hseq & _ & Hrs & Hfs & Hnil & Hfresh).
    cbv zeta in Hseq, Hrs, Hfs. set (σs := mkStore (frames σ ++ news) (lists σ)) in *.
    fold inputs in Hfs. change (foldl merge (frame σ x) (tables_of σ l))
      with (merge_all inputs) in Hfs.
    unfold concordance_test. rewrite Hseq, He. unfold check_shape, concordance.
    rewrite Hfs. case_decide as Hs1; [|by eexists].
    assert (list_at σs dfs = x :: l) as Hl' by done.
    assert (call_ok σs dfs) as Hok'.
    { split; [done|]. rewrite Hl'. unfold valid, σs. cbn [frames].
      rewrite length_app. eapply Forall_impl; [exact Hv|]. simpl. lia. }
    assert (tables_of σs (x :: l) = inputs) as Hin by (by apply tables_of_app).
    assert (expected_shape σs dfs = expected) as He'.
    { unfold expected_shape. rewrite Hl'. unfold expected. do 3 f_equal.
      unfold frame, σs. cbn [frames]. simpl. rewrite lookup_total_app_l; [done|].
      by apply Forall_cons in Hv as [? _]. }
    destruct (join_dataframes_recursively_spec dfs σs Hok') as
      (dfs' & σ' & rr & _ & Hpost & Hrec & Hfr); [by rewrite Hl'|].
    destruct (rounds_post_tree_join _ _ _ _ _ _ Hpost) as [_ Htree].
    rewrite Hl', Hin in Htree. cbv zeta in Hrec, Hfr.
    set (σ'' := set_columns rr (sorted (columns (frame σ' rr))) σ') in *.
    assert (frame σ'' rr = recursive_value inputs) as Hfr'.
    { rewrite Hfr. unfold recursive_value. by rewrite Htree. }
    rewrite Hrec. cbn [mbind option_bind store outcome]. rewrite He'.
    unfold check_shape. rewrite Hfr'. case_decide as Hs2; [|by eexists].
    eexists. do 2 f_equal. unfold assert_frame_equal. rewrite Hfr'.
    assert (frame σ'' rs = merge_all inputs) as ->; [|done].
    destruct (decide (l = [])) as [->|Hne].
    + (* one table: both results are the input table itself *)
      rewrite (Hnil eq_refl) in *.
      destruct (post_single _ _ _ _ _ _ _ _ Hpost) as [E1 E2];
        [by rewrite Hl'|]. subst σ' dfs'.
      pose proof (post_list _ _ _ _ _ _ _ _ Hpost) as Hlist.
      rewrite Hl' in Hlist. injection Hlist as <-.
      rewrite Hfr'. unfold recursive_value, tree_join. simpl.
      apply relabel_sorted_id.
      injection Hs1 as Hc. simpl in Hc.
      destruct (columns (frame σ x)) as [|c [|c' cs]]; simpl in Hc; try done.
      repeat constructor.
    + (* two tables or more: the recursive result is a new frame *)
      destruct (post_fresh _ _ _ _ _ _ _ _ Hpost) as [Hge _].
      { rewrite Hl'. destruct l; [done|simpl; lia]. }
      destruct (post_frames _ _ _ _ _ _ _ _ Hpost) as (news' & Hframes & _).
      unfold frame, σ'', set_columns. cbn [frames].
      rewrite list_lookup_total_insert_ne by lia.
      rewrite Hframes, lookup_total_app_l by done. exact Hfs.
  - intros Hu Hone Hsame Hs Hd.
    assert (frame σ x ∈ inputs) as Hx by (unfold inputs; simpl; left).
    assert (unique_keys (frame σ x)) as Hux
      by (by eapply (proj1 (Forall_forall _ _) Hu)).
    assert (length inputs = length (x :: l)) as Hlen
      by (unfold inputs; by rewrite tables_of_length).
    assert (recursive_value inputs = merge_all inputs) as Heq
      by (by apply reducers_agree).
    assert (shape (merge_all inputs) = expected) as Hshape.
    { unfold expected. rewrite <-Hlen.
      apply (rows_joined_shape inputs); [|done..].
      by apply rows_joined_merge_all. }
    unfold concordance. rewrite Heq. by rewrite !decide_True.
Qed.

Lemma C3_witness :
  let inputs := tables_of five_in_order [0; 1; 2; 3; 4] in
  let expected := (length (rows (frame five_in_order 0)), length [0; 1; 2; 3; 4]) in
  (∃ σ', concordance_test 0 five_in_order
         = Some (σ', concordance expected (merge_all inputs)
                       (recursive_value inputs)))
  ∧ concordance expected (merge_all inputs) (recursive_value inputs) = Return ().
Proof.
  intros inputs expected.
  destruct (C3_concordance_test five_in_order 0 0 [1; 2; 3; 4]) as [Hrun Hok];
    [by_evaluation..|].
  split; [exact Hrun|]. apply Hok; [by_evaluation..| |by_evaluation|by_evaluation].
  unfold tables_of. cbn [fmap list_fmap].
  repeat apply Forall_cons_2; try apply Forall_nil_2; intros k; reflexivity.
Defined.

(** The five files in order, run: no mismatch. *)
Example five_in_order_concordant :
  snd <$> concordance_test 0 five_in_order = Some (Return ()).
Proof. vm_compute. reflexivity. Qed.

(** ** C1 and C2 *)

(** C1: evaluated on the samples B and A given in that order, both reducers
    return a table; the sequential one has the count 2 of sample A in column
    A, the recursive one has the count 1 of sample B there, so the two tables
    differ in their (key, column) -> value content although the inputs have
    identical key sets. *)
Theorem C1_reducers_differ_on_unsorted_names :
  ∃ σs run,
    join_dataframes_sequentially 0 samples_B_A = (σs, Return 2)
    ∧ join_dataframes_recursively 0 samples_B_A = Some run
    ∧ outcome run = Return 2
    ∧ frame σs 2 = mkDataFrame ["B"; "A"] [("g", [Some 1%Z; Some 2%Z])]
    ∧ frame (store run) 2 = mkDataFrame ["A"; "B"] [("g", [Some 1%Z; Some 2%Z])]
    ∧ cell (frame σs 2) "g" "A" = Some (Some 2%Z)
    ∧ cell (frame (store run) 2) "g" "A" = Some (Some 1%Z)
    ∧ ¬ same_content (frame σs 2) (frame (store run) 2).
Proof.
  eexists _, _. split_and!; [reflexivity..|].
  intros (_ & _ & Hcell). specialize (Hcell "g" "A"). by vm_compute in Hcell.
Qed.

(** C2: evaluated on the samples B and A given in that order, the recursive
    reducer returns a table whose labels are in sorted order, A then B, over
    cells that stayed where the join put them: column A holds the count of
    sample B and column B that of sample A. Given the same samples in the
    order A, B, column A holds the count of sample A: the layout depends on
    the input order. *)
Theorem C2_sorting_relabels_without_moving :
  ∃ run run',
    join_dataframes_recursively 0 samples_B_A = Some run
    ∧ join_dataframes_recursively 0 samples_A_B = Some run'
    ∧ outcome run = Return 2 ∧ outcome run' = Return 2
    ∧ columns (frame (store run) 2) = ["A"; "B"]
    ∧ columns (frame (store run') 2) = ["A"; "B"]
    ∧ get (frame (store run) 2) "g" "A" = get (one_gene "B" 1) "g" "B"
    ∧ get (frame (store run) 2) "g" "A" ≠ get (one_gene "A" 2) "g" "A"
    ∧ get (frame (store run') 2) "g" "A" = get (one_gene "A" 2) "g" "A".
Proof. eexists _, _. split_and!; try reflexivity. by vm_compute. Qed.

(** * Further properties of the reducers *)

(** Both reducers in terms of the frames they build: what each one checks,
    returns when the check passes, and leaves in the store. *)
Lemma reducers_value σ dfs x l :
  call_ok σ dfs → list_at σ dfs = x :: l →
  let inputs := tables_of σ (x :: l) in
  let expected := (length (rows (frame σ x)), length (x :: l)) in
  ∃ σs rs run rr,
    join_dataframes_sequentially dfs σ
    = (σs, verdict expected (merge_all inputs) rs)
    ∧ frame σs rs = merge_all inputs
    ∧ join_dataframes_recursively dfs σ = Some run
    ∧ outcome run = verdict expected (recursive_value inputs) rr
    ∧ frame (store run) rr = recursive_value inputs.
Proof.
  intros Hok Hl inputs expected. pose proof Hok as [Hdfs Hv]. rewrite Hl in Hv.
  assert (expected_shape σ dfs = expected) as He.
  { unfold expected_shape. by rewrite Hl. }
  destruct (join_dataframes_sequentially_spec dfs σ x l Hl Hv)
    as (news & rs & Hseq & _ & _ & Hfs & _ & _).
  destruct (join_dataframes_recursively_spec dfs σ Hok) as
    (dfs' & σ' & rr & _ & Hpost & Hrec & Hfr); [by rewrite Hl|].
  destruct (rounds_post_tree_join _ _ _ _ _ _ Hpost) as [_ Htree].
  rewrite Hl in Htree. fold inputs in Htree.
  assert (frame (set_columns rr (sorted (columns (frame σ' rr))) σ') rr
          = recursive_value inputs) as Hfr'.
  { rewrite Hfr. unfold recursive_value. by rewrite Htree. }
  eexists _, rs, _, rr. split_and!.
  - rewrite Hseq, He. unfold check_shape, verdict. by rewrite Hfs.
  - exact Hfs.
  - exact Hrec.
  - cbn [outcome]. rewrite He. unfold check_shape, verdict. by rewrite Hfr'.
  - exact Hfr'.
Qed.

(** What the recursive reducer builds is what the sequential one builds, with
    the sorted labels assigned to its columns. *)
Lemma recursive_value_relabel inputs :
  inputs ≠ [] → Forall unique_keys inputs → distinct_labels inputs →
  recursive_value inputs = relabel_sorted (merge_all inputs)
  ∧ columns (merge_all inputs) = concat (columns <$> inputs).
Proof.
  intros Hne Hu Hd.
  destruct (reduce_singleton (length inputs) inputs) as [m Hm]; [done..|].
  assert (folded inputs m) as [_ Hf].
  { eapply (reduce_singleton_inv _ folded_merge); [|exact Hm].
    apply Forall_forall. intros t _. apply folded_single. }
  destruct (Hf Hu Hd) as (-> & _ & Hc).
  unfold recursive_value, tree_join. by rewrite Hm.
Qed.

(** X1: on tables with unique keys, identical key sets and one column each,
    both reducers return a table, and it has as many rows as the first input
    and one column per input. *)
Theorem reducers_return_expected_shape σ dfs x l :
  call_ok σ dfs → list_at σ dfs = x :: l →
  let inputs := tables_of σ (x :: l) in
  let expected := (length (rows (frame σ x)), length (x :: l)) in
  Forall unique_keys inputs →
  Forall (λ t, length (columns t) = 1) inputs →
  Forall (λ t, ∀ k, k ∈ index t ↔ k ∈ index (frame σ x)) inputs →
  ∃ σs rs run rr,
    join_dataframes_sequentially dfs σ = (σs, Return rs)
    ∧ shape (frame σs rs) = expected
    ∧ join_dataframes_recursively dfs σ = Some run
    ∧ outcome run = Return rr
    ∧ shape (frame (store run) rr) = expected.
Proof.
  intros Hok Hl inputs expected Hu Hone Hsame.
  destruct (reducers_value σ dfs x l Hok Hl)
    as (σs & rs & run & rr & Hseq & Hfs & Hrec & Hout & Hfr).
  fold inputs expected in Hseq, Hfs, Hout, Hfr.
  assert (frame σ x ∈ inputs) as Hx by (unfold inputs; simpl; left).
  assert (unique_keys (frame σ x)) as Hux
    by (by eapply (proj1 (Forall_forall _ _) Hu)).
  assert (length inputs = length (x :: l)) as Hlen
    by (unfold inputs; by rewrite tables_of_length).
  assert (shape (merge_all inputs) = expected) as Hs1.
  { unfold expected. rewrite <-Hlen.
    apply (rows_joined_shape inputs); [|done..].
    by apply rows_joined_merge_all. }
  assert (shape (recursive_value inputs) = expected) as Hs2.
  { unfold expected. rewrite <-Hlen.
    apply (rows_joined_shape inputs); [|done..].
    by apply rows_joined_relabel, rows_joined_tree_join. }
  exists σs, rs, run, rr. unfold verdict in *.
  rewrite decide_True in Hseq by done. rewrite decide_True in Hout by done.
  split_and!; try done; congruence.
Qed.

Lemma reducers_return_expected_shape_witness :
  ∃ σs rs run rr,
    join_dataframes_sequentially 0 five_in_order = (σs, Return rs)
    ∧ shape (frame σs rs) = (1, 5)
    ∧ join_dataframes_recursively 0 five_in_order = Some run
    ∧ outcome run = Return rr
    ∧ shape (frame (store run) rr) = (1, 5).
Proof.
  apply (reducers_return_expected_shape five_in_order 0 0 [1; 2; 3; 4]);
    try by_evaluation.
  unfold tables_of. cbn [fmap list_fmap].
  repeat apply Forall_cons_2; try apply Forall_nil_2; intros k; reflexivity.
Defined.

(** X2: on tables with unique keys and distinct column labels, the table the
    sequential reducer checks has the inputs' labels in input order, and the
    table the recursive reducer checks has the same rows and cells under the
    same labels put in sorted order: the labels are sorted, the cells are
    not moved. *)
Theorem recursive_is_sequential_relabelled σ dfs x l :
  call_ok σ dfs → list_at σ dfs = x :: l →
  let inputs := tables_of σ (x :: l) in
  let expected := (length (rows (frame σ x)), length (x :: l)) in
  Forall unique_keys inputs → distinct_labels inputs →
  ∃ σs rs run rr,
    join_dataframes_sequentially dfs σ
    = (σs, verdict expected (frame σs rs) rs)
    ∧ join_dataframes_recursively dfs σ = Some run
    ∧ outcome run = verdict expected (frame (store run) rr) rr
    ∧ columns (frame σs rs) = concat (columns <$> inputs)
    ∧ columns (frame (store run) rr) = sorted (concat (columns <$> inputs))
    ∧ rows (frame (store run) rr) = rows (frame σs rs).
Proof.
  intros Hok Hl inputs expected Hu Hd.
  destruct (reducers_value σ dfs x l Hok Hl)
    as (σs & rs & run & rr & Hseq & Hfs & Hrec & Hout & Hfr).
  fold inputs expected in Hseq, Hfs, Hout, Hfr.
  destruct (recursive_value_relabel inputs) as [Hrel Hcols]; [done..|].
  exists σs, rs, run, rr. rewrite Hfs, Hfr. split_and!; try done.
  - rewrite Hrel. unfold relabel_sorted. cbn [columns]. by rewrite Hcols.
  - by rewrite Hrel.
Qed.

Lemma recursive_is_sequential_relabelled_witness :
  let inputs := tables_of samples_B_A [0; 1] in
  let expected := (length (rows (frame samples_B_A 0)), length [0; 1]) in
  ∃ σs rs run rr,
    join_dataframes_sequentially 0 samples_B_A
    = (σs, verdict expected (frame σs rs) rs)
    ∧ join_dataframes_recursively 0 samples_B_A = Some run
    ∧ outcome run = verdict expected (frame (store run) rr) rr
    ∧ columns (frame σs rs) = concat (columns <$> inputs)
    ∧ columns (frame (store run) rr) = sorted (concat (columns <$> inputs))
    ∧ rows (frame (store run) rr) = rows (frame σs rs).
Proof.
  apply (recursive_is_sequential_relabelled samples_B_A 0 0 [1]);
    unfold distinct_labels; by_evaluation.
Defined.

(** X3: on tables with unique keys whose column labels are distinct and
    given in increasing order, the two reducers check one and the same frame,
    so that either both return it or both raise the same [ShapeMismatch]. *)
Theorem reducers_agree_on_sorted_names σ dfs x l :
  call_ok σ dfs → list_at σ dfs = x :: l →
  let inputs := tables_of σ (x :: l) in
  let expected := (length (rows (frame σ x)), length (x :: l)) in
  Forall unique_keys inputs →
  Sorted String.le (concat (columns <$> inputs)) →
  NoDup (concat (columns <$> inputs)) →
  ∃ σs rs run rr,
    join_dataframes_sequentially dfs σ
    = (σs, verdict expected (frame σs rs) rs)
    ∧ join_dataframes_recursively dfs σ = Some run
    ∧ outcome run = verdict expected (frame (store run) rr) rr
    ∧ frame (store run) rr = frame σs rs.
Proof.
  intros Hok Hl inputs expected Hu Hs Hd.
  destruct (reducers_value σ dfs x l Hok Hl)
    as (σs & rs & run & rr & Hseq & Hfs & Hrec & Hout & Hfr).
  fold inputs expected in Hseq, Hfs, Hout, Hfr.
  exists σs, rs, run, rr. rewrite Hfs, Hfr. split_and!; try done.
  by apply reducers_agree.
Qed.

Lemma reducers_agree_on_sorted_names_witness :
  let inputs := tables_of three_files [0; 1; 2] in
  let expected := (length (rows (frame three_files 0)), length [0; 1; 2]) in
  ∃ σs rs run rr,
    join_dataframes_sequentially 0 three_files
    = (σs, verdict expected (frame σs rs) rs)
    ∧ join_dataframes_recursively 0 three_files = Some run
    ∧ outcome run = verdict expected (frame (store run) rr) rr
    ∧ frame (store run) rr = frame σs rs.
Proof.
  apply (reducers_agree_on_sorted_names three_files 0 0 [1; 2]); by_evaluation.
Defined.

(** X4: the recursive reducer uses up the list it is given: after a call on
    two tables or more, a second call of either reducer on the same list
    raises [ValueError]. *)
Theorem recursive_reducer_consumes_its_input σ dfs :
  call_ok σ dfs → 1 < length (list_at σ dfs) →
  ∃ run,
    join_dataframes_recursively dfs σ = Some run
    ∧ join_dataframes_sequentially dfs (store run)
      = (store run, Raise ValueError)
    ∧ join_dataframes_recursively dfs (store run)
      = Some (mkRun (store run) None (Raise ValueError)).
Proof.
  intros Hok Hlen.
  destruct (join_dataframes_recursively_spec dfs σ Hok) as
    (dfs' & σ' & rr & _ & Hpost & Hrec & _).
  { intros E. rewrite E in Hlen. simpl in Hlen. lia. }
  destruct (post_fresh _ _ _ _ _ _ _ _ Hpost Hlen) as [_ Hempty].
  eexists. split; [exact Hrec|]. cbn [store].
  set (σ'' := set_columns _ _ _).
  assert (list_at σ'' dfs = []) as Hl by exact Hempty.
  unfold join_dataframes_sequentially, join_dataframes_recursively.
  rewrite Hl. simpl. done.
Qed.

Lemma recursive_reducer_consumes_its_input_witness :
  ∃ run,
    join_dataframes_recursively 0 two_samples = Some run
    ∧ join_dataframes_sequentially 0 (store run)
      = (store run, Raise ValueError)
    ∧ join_dataframes_recursively 0 (store run)
      = Some (mkRun (store run) None (Raise ValueError)).
Proof.
  apply (recursive_reducer_consumes_its_input two_samples 0); by_evaluation.
Defined.

(** The outer loop allocates one working list per turn. *)
Lemma rounds_loop_lists fuel : ∀ dfs σ n dfs' σ' n',
  length (list_at σ dfs) ≤ fuel → dfs < length (lists σ) →
  valid σ (list_at σ dfs) →
  rounds_loop fuel dfs σ n = Some (dfs', σ', n') →
  length (lists σ') = length (lists σ) + num_rounds fuel (length (list_at σ dfs)).
Proof.
  induction fuel as [|fuel IH]; intros dfs σ n dfs' σ' n' Hfuel Hdfs Hv Hrun.
  - simpl in Hrun. rewrite decide_False in Hrun by lia.
    injection Hrun as _ <- _. simpl. lia.
  - destruct (decide (1 < length (list_at σ dfs))) as [Hlen|Hlen].
    + rewrite rounds_loop_step in Hrun by done.
      set (l := list_at σ dfs) in *.
      set (σ1 := mkStore _ _) in Hrun. set (dfs1 := length (lists σ)) in Hrun.
      assert (list_at σ1 dfs1 = pair_refs (length (frames σ)) l) as Hl1.
      { unfold list_at, σ1, dfs1. cbn [lists].
        rewrite <-(length_insert (lists σ) dfs []).
        by rewrite list_lookup_total_middle. }
      assert (length (lists σ1) = S (length (lists σ))) as Hlists.
      { unfold σ1. cbn [lists]. rewrite length_app, length_insert. simpl. lia. }
      pose proof (ceil_half_lt _ Hlen) as Hlt.
      apply IH in Hrun.
      * rewrite Hrun, Hlists, Hl1, pair_refs_length. cbn [num_rounds].
        rewrite decide_True by done. lia.
      * rewrite Hl1, pair_refs_length. lia.
      * rewrite Hlists. unfold dfs1. lia.
      * rewrite Hl1. unfold valid, σ1. cbn [frames].
        pose proof (pair_refs_valid (frames σ) [] l Hv) as Hv'.
        simpl in Hv'. rewrite !Nat.add_0_r in Hv'. by rewrite length_app.
    + cbn [rounds_loop num_rounds] in *. rewrite decide_False in Hrun by done.
      rewrite decide_False by done. injection Hrun as _ <- _. lia.
Qed.

Lemma double_ceil_half n : n ≤ 2 * ceil_half n ∧ 2 * ceil_half n ≤ n + 1.
Proof.
  unfold ceil_half. pose proof (Nat.div_mod_eq (n + 1) 2).
  pose proof (Nat.mod_upper_bound (n + 1) 2 ltac:(lia)). lia.
Qed.

(** The number of turns is the binary logarithm of the number of tables,
    rounded up. *)
Lemma rounds_bounds fuel : ∀ num,
  num ≤ fuel → 1 ≤ num →
  num ≤ 2 ^ num_rounds fuel num ∧ (1 < num → 2 ^ (num_rounds fuel num - 1) < num).
Proof.
  induction fuel as [|fuel IH]; intros num Hfuel Hnum; [lia|].
  cbn [num_rounds]. case_decide as H1; [|simpl; lia].
  pose proof (ceil_half_lt _ H1) as Hlt.
  pose proof (double_ceil_half num) as [Hlo Hhi].
  destruct (IH (ceil_half num)) as [Hle Hgt]; [lia|lia|].
  split.
  - rewrite Nat.pow_succ_r'. lia.
  - intros _. replace (S (num_rounds fuel (ceil_half num)) - 1)
      with (num_rounds fuel (ceil_half num)) by lia.
    destruct (decide (1 < ceil_half num)) as [H2|H2].
    + specialize (Hgt H2).
      destruct (num_rounds fuel (ceil_half num)) as [|r] eqn:Hr; [simpl; lia|].
      replace (S r - 1) with r in Hgt by lia.
      rewrite Nat.pow_succ_r'. lia.
    + destruct fuel as [|fuel']; [lia|]. cbn [num_rounds].
      rewrite decide_False by done. simpl. lia.
Qed.

(** X5: on [num] tables the recursive reducer makes as many pairing rounds,
    one new working list each, as the binary logarithm of [num] rounded up:
    the number [k] of rounds satisfies [2 ^ (k - 1) < num ≤ 2 ^ k]. *)
Theorem recursive_reducer_rounds σ dfs :
  call_ok σ dfs → list_at σ dfs ≠ [] →
  let num := length (list_at σ dfs) in
  ∃ run k,
    join_dataframes_recursively dfs σ = Some run
    ∧ length (lists (store run)) = length (lists σ) + k
    ∧ num ≤ 2 ^ k
    ∧ (1 < num → 2 ^ (k - 1) < num).
Proof.
  intros Hok Hne num. pose proof Hok as [Hdfs Hv].
  destruct (join_dataframes_recursively_spec dfs σ Hok Hne) as
    (dfs' & σ' & rr & Hrounds & _ & Hrec & _).
  apply rounds_loop_lists in Hrounds; [|done..].
  assert (1 ≤ num) as Hnum.
  { unfold num. destruct (list_at σ dfs); simpl; [done|lia]. }
  destruct (rounds_bounds num num) as [Hle Hgt]; [done..|].
  eexists _, (num_rounds num num). split; [exact Hrec|]. cbn [store set_columns lists].
  split_and!; done.
Qed.

Lemma recursive_reducer_rounds_witness :
  let num := length (list_at five_in_order 0) in
  ∃ run k,
    join_dataframes_recursively 0 five_in_order = Some run
    ∧ length (lists (store run)) = length (lists five_in_order) + k
    ∧ num ≤ 2 ^ k
    ∧ (1 < num → 2 ^ (k - 1) < num).
Proof. apply (recursive_reducer_rounds five_in_order 0); by_evaluation. Defined.

Lemma suffix_x_le_suffix_y s : String.le (s +:+ "_x") (s +:+ "_y").
Proof.
  unfold String.le, String.leb.
  assert ((s +:+ "_x" ?= s +:+ "_y")%string = Lt) as ->; [|done].
  induction s as [|c s IH]; [done|]. simpl.
  assert (Ascii.compare c c = Eq) as ->
    by (unfold Ascii.compare; apply N.compare_refl).
  exact IH.
Qed.

(** Shapes of the frames both reducers build on tables with unique keys,
    identical key sets and one column each. *)
Lemma expected_shapes inputs first :
  first ∈ inputs → Forall unique_keys inputs →
  Forall (λ t, length (columns t) = 1) inputs →
  Forall (λ t, ∀ k, k ∈ index t ↔ k ∈ index first) inputs →
  shape (merge_all inputs) = (length (rows first), length inputs)
  ∧ shape (recursive_value inputs) = (length (rows first), length inputs).
Proof.
  intros Hf Hu Hone Hsame.
  assert (inputs ≠ []) as Hne by (intros ->; by apply elem_of_nil in Hf).
  assert (unique_keys first) as Huf
    by (by eapply (proj1 (Forall_forall _ _) Hu)).
  split.
  - apply (rows_joined_shape inputs); [|done..].
    by apply rows_joined_merge_all.
  - apply (rows_joined_shape inputs); [|done..].
    by apply rows_joined_relabel, rows_joined_tree_join.
Qed.

(** X6: two tables that carry the same sample name are not rejected. When
    they have unique keys and the same key set, both reducers return a table
    whose two columns are labelled with that name followed by [_x] and by
    [_y], neither being the sample name. *)
Theorem same_sample_name_gets_suffixes σ dfs x y s :
  call_ok σ dfs → list_at σ dfs = [x; y] →
  columns (frame σ x) = [s] → columns (frame σ y) = [s] →
  unique_keys (frame σ x) → unique_keys (frame σ y) →
  (∀ k, k ∈ index (frame σ y) ↔ k ∈ index (frame σ x)) →
  ∃ σs rs run rr,
    join_dataframes_sequentially dfs σ = (σs, Return rs)
    ∧ columns (frame σs rs) = [s +:+ "_x"; s +:+ "_y"]
    ∧ join_dataframes_recursively dfs σ = Some run
    ∧ outcome run = Return rr
    ∧ columns (frame (store run) rr) = [s +:+ "_x"; s +:+ "_y"].
Proof.
  intros Hok Hl Hcx Hcy Hux Huy Hsame.
  destruct (reducers_value σ dfs x [y] Hok Hl)
    as (σs & rs & run & rr & Hseq & Hfs & Hrec & Hout & Hfr).
  cbv zeta in *. cbn [tables_of fmap list_fmap] in *.
  set (inputs := [frame σ x; frame σ y]) in *.
  destruct (expected_shapes inputs (frame σ x)) as [Hs1 Hs2].
  { left. }
  { by repeat constructor. }
  { repeat constructor; by rewrite ?Hcx, ?Hcy. }
  { repeat apply Forall_cons_2; [done|done|constructor]. }
  unfold verdict in *. rewrite decide_True in Hseq by exact Hs1.
  rewrite decide_True in Hout by exact Hs2.
  assert (columns (merge (frame σ x) (frame σ y)) = [s +:+ "_x"; s +:+ "_y"])
    as Hcols.
  { simpl. rewrite Hcx, Hcy. unfold merge_columns, suffix_overlap. simpl.
    rewrite !decide_True by (by left). done. }
  exists σs, rs, run, rr. rewrite Hfs, Hfr. split_and!; [done| |done|done|].
  - exact Hcols.
  - unfold recursive_value, tree_join, inputs. cbn [length reduce].
    rewrite decide_True by lia. cbn [pair_up reduce length].
    rewrite decide_False by lia. cbn [head default].
    change (sorted (columns (merge (frame σ x) (frame σ y)))
            = [s +:+ "_x"; s +:+ "_y"]).
    rewrite Hcols.
    apply sorted_id. repeat constructor. apply suffix_x_le_suffix_y.
Qed.

Lemma same_sample_name_gets_suffixes_witness :
  ∃ σs rs run rr,
    join_dataframes_sequentially 0 two_clashing = (σs, Return rs)
    ∧ columns (frame σs rs) = ["s_x"; "s_y"]
    ∧ join_dataframes_recursively 0 two_clashing = Some run
    ∧ outcome run = Return rr
    ∧ columns (frame (store run) rr) = ["s_x"; "s_y"].
Proof.
  apply (same_sample_name_gets_suffixes two_clashing 0 0 1 "s");
    try by_evaluation; try reflexivity.
Defined.

(** * Properties of [read_counts] and [run] *)

Section names.
Implicit Types (old a b p s : string).

Lemma basename_no_slash p : has_slash p = false → basename p = p.
Proof.
  destruct p as [|c p]; [done|]. simpl.
  destruct (Ascii.eqb c slash); [done|]. by intros ->.
Qed.

Lemma has_slash_app_slash a b : has_slash (a +:+ String slash b) = true.
Proof.
  induction a as [|c a IH]; simpl.
  - by rewrite ?Ascii.eqb_refl.
  - by destruct (Ascii.eqb c slash).
Qed.

Lemma basename_app_slash a b :
  has_slash b = false → basename (a +:+ String slash b) = b.
Proof.
  intros Hb. induction a as [|c a IH]; simpl.
  - by rewrite Hb, ?Ascii.eqb_refl.
  - by rewrite has_slash_app_slash.
Qed.

Lemma starts_with_app old b : starts_with old (old +:+ b) = true.
Proof. induction old as [|c old IH]; [done|]. simpl. by rewrite Ascii.eqb_refl. Qed.

Lemma remove_scan_skip old p b :
  remove_scan old (String.length p) (p +:+ b) = remove_scan old 0 b.
Proof. induction p as [|c p IH]; [done|]. simpl. exact IH. Qed.

Lemma remove_scan_first_match old a b :
  old ≠ "" → clear_of old a (old +:+ b) = true →
  remove_scan old 0 (a +:+ old +:+ b) = a +:+ remove_scan old 0 b.
Proof.
  intros Hold. induction a as [|c a IH]; intros Hclear.
  - destruct old as [|c old]; [done|].
    change ("" +:+ String c old +:+ b) with (String c (old +:+ b)).
    cbn [remove_scan].
    change (String c (old +:+ b)) with (String c old +:+ b).
    rewrite starts_with_app. cbn [String.length].
    replace (S (String.length old) - 1) with (String.length old) by lia.
    apply remove_scan_skip.
  - cbn [clear_of] in Hclear. apply andb_true_iff in Hclear as [Hc Hclear].
    apply negb_true_iff in Hc.
    change (String c a +:+ old +:+ b) with (String c (a +:+ old +:+ b)) in *.
    cbn [remove_scan]. rewrite Hc. by rewrite IH.
Qed.
End names.

(** X7: the directories of a file name play no part in the sample name: a
    file takes the column label of its base name, so files of the same base
    name in different directories get the same label. *)
Theorem sample_name_ignores_directory directory base suffix_to_remove :
  has_slash base = false →
  sample_name (directory +:+ String slash base) suffix_to_remove
  = sample_name base suffix_to_remove.
Proof.
  intros Hb. unfold sample_name.
  by rewrite basename_app_slash, basename_no_slash.
Qed.

Lemma sample_name_ignores_directory_witness :
  sample_name ("run1/batch" +:+ String slash "S1.txt") (Some ".txt")
  = sample_name "S1.txt" (Some ".txt").
Proof. apply (sample_name_ignores_directory "run1/batch" "S1.txt"). reflexivity. Defined.

(** X8: the text to remove is taken out wherever it first occurs in the base
    name, not only at its end, and the scan goes on behind it. For a base
    name [stem ++ suffix ++ rest] in which the suffix starts at no position
    of the stem, the sample name is the stem followed by what the removal
    leaves of the rest; with an empty rest it is the stem. *)
Theorem sample_name_removes_first_occurrence stem suffix rest :
  suffix ≠ "" →
  has_slash (stem +:+ suffix +:+ rest) = false →
  clear_of suffix stem (suffix +:+ rest) = true →
  sample_name (stem +:+ suffix +:+ rest) (Some suffix)
  = stem +:+ remove_all suffix rest.
Proof.
  intros Hs Hslash Hclear. unfold sample_name.
  rewrite basename_no_slash, decide_False by done.
  unfold remove_all. destruct suffix as [|c suffix]; [done|].
  by apply remove_scan_first_match.
Qed.

Lemma sample_name_removes_first_occurrence_witness :
  sample_name ("S1" +:+ ".txt" +:+ ".bak.txt") (Some ".txt")
  = "S1" +:+ remove_all ".txt" ".bak.txt".
Proof.
  apply (sample_name_removes_first_occurrence "S1" ".txt" ".bak.txt");
    [done|reflexivity|reflexivity].
Defined.

(** The sample name of the default layout, and a name with the suffix in the
    middle. *)
Example sample_names :
  sample_name "data/SJ01.RNA-Seq.feature-counts.txt"
    (Some ".RNA-Seq.feature-counts.txt") = "SJ01"
  ∧ sample_name "S1.txt.bak.txt" (Some ".txt") = "S1.bak".
Proof. split; reflexivity. Qed.

Section reading.
Context (files : Files) (suffix_to_remove : option string).




End reading.



Section running.
Implicit Types (σ : Store) (dfs : list DataFrame).


Lemma call_ok_loaded dfs : call_ok (loaded dfs) 0.
Proof.
  split; [simpl; lia|]. unfold valid, list_at. simpl.
  apply Forall_forall. intros i Hi. apply elem_of_seq in Hi. lia.
Qed.

Lemma join_dataframes_recursively_total σ d :
  call_ok σ d → ∃ run, join_dataframes_recursively d σ = Some run.
Proof.
  intros Hok. destruct (decide (list_at σ d = [])) as [Hl|Hl].
  - unfold join_dataframes_recursively. rewrite Hl. simpl. by eexists.
  - destruct (join_dataframes_recursively_spec d σ Hok Hl)
      as (? & ? & ? & _ & _ & Hrec & _). by eexists.
Qed.

Lemma concordance_test_total σ d :
  call_ok σ d → ∃ result, concordance_test d σ = Some result.
Proof.
  intros Hok. unfold concordance_test.
  destruct (list_at σ d) as [|x l] eqn:Hl.
  - unfold join_dataframes_sequentially. rewrite Hl. simpl. by eexists.
  - pose proof Hok as [Hd Hv]. rewrite Hl in Hv.
    destruct (join_dataframes_sequentially_spec d σ x l Hl Hv)
      as (news & rs & Hseq & _). cbv zeta in Hseq. rewrite Hseq.
    destruct (check_shape _ _ _); [|by eexists].
    set (σs := mkStore _ _).
    destruct (join_dataframes_recursively_total σs d) as [run ->].
    { split; [done|]. change (list_at σs d) with (list_at σ d). rewrite Hl.
      unfold valid, σs. cbn [frames]. rewrite length_app.
      eapply Forall_impl; [exact Hv|]. simpl. lia. }
    simpl. destruct (outcome run); by eexists.
Qed.

Lemma func_total subcommand dfs :
  ∃ result, func subcommand 0 (loaded dfs) = Some result.
Proof.
  unfold func. case_decide; [|by eexists].
  destruct (join_dataframes_recursively_total (loaded dfs) 0) as [run ->];
    [apply call_ok_loaded|]. by eexists.
Qed.

Lemma write_result_written args df :
  length (written (write_result args df)) ≤ 1
  ∧ (failure (write_result args df) ≠ None → written (write_result args df) = []).
Proof. unfold write_result. repeat case_decide; simpl; split; (lia || done). Qed.
End running.

(** X10: [run] always comes to an end and writes at most one file. It writes
    none when anything fails, be it a missing input, an error of a reducer,
    a reported mismatch or an output type it does not handle, and none for
    the subcommand [concordance-test]. *)
Theorem run_writes_only_on_success args files :
  ∃ finished,
    run args files = Some finished
    ∧ length (written finished) ≤ 1
    ∧ (failure finished ≠ None → written finished = [])
    ∧ (subcommand args = "concordance-test" → written finished = []).
Proof.
  assert (∀ e, ∃ finished,
    Some (mkFinished [] e) = Some finished
    ∧ length (written finished) ≤ 1
    ∧ (failure finished ≠ None → written finished = [])
    ∧ (subcommand args = "concordance-test" → written finished = []))
    as Hnone.
  { intros e. eexists. split; [done|]. simpl. split_and!; [lia|done|done]. }
  unfold run.
  destruct (read_counts _ _ _ _) as [e|dfs]; [apply Hnone|].
  case_decide as Hc.
  - destruct (concordance_test_total (loaded dfs) 0) as [[σ tested] ->];
      [apply call_ok_loaded|].
    simpl. destruct tested; apply Hnone.
  - case_decide as Hs; [|apply Hnone].
    destruct (func_total (subcommand args) dfs) as [[σ result] ->]. simpl.
    destruct result as [r|e]; [|apply Hnone].
    eexists. split; [done|].
    destruct (write_result_written args (frame σ r)) as [H1 H2].
    split_and!; done.
Qed.


